(** * ImageResize: the selection/overlay lifecycle controller

    A shallow embedding of the [ImageResize] class (the Quill module that
    lets a user select an [<img>] and resize it through an overlay), and
    the properties of its lifecycle: teardown order, geometry, listener
    registration, module hook order.

    The class mutates [this], the DOM and the host editor; the embedding
    threads one [World] through a state-and-exception monad [M]. Every
    call that leaves the class (a module hook, a DOM call, a host command)
    and every write of [this.img] is appended to the world's [trace], so
    that orderings can be stated. *)

From Stdlib Require Import ZArith DecimalString Ascii.
From stdpp Require Import gmap strings list fin_maps.

Open Scope Z_scope.

(** ** DOM values *)

(** An element the editor shows. [node_id] is the identity of the JS
    object; [tagName] is absent on targets that are not elements. *)
Record Node := mkNode { node_id : nat; tagName : option string }.

#[global] Instance Node_eq_dec : EqDecision Node.
Proof. solve_decision. Defined.

(** [getBoundingClientRect()]; lengths are CSS pixels, taken as integers. *)
Record Rect := mkRect { r_left : Z; r_top : Z; r_width : Z; r_height : Z }.

(** What the controller measures and looks up but never writes: the
    layout of the page and the host editor's index of a blot. *)
Record Layout := mkLayout {
  imgRect : Node -> Rect;        (* img.getBoundingClientRect() *)
  containerRect : Rect;          (* quill.root.parentNode.getBoundingClientRect() *)
  scrollLeft : Z;                (* quill.root.parentNode.scrollLeft *)
  scrollTop : Z;                 (* quill.root.parentNode.scrollTop *)
  getIndex : Node -> Z           (* quill.getIndex(Quill.find(img)) *)
}.

(** The event object handed to a listener. *)
Record DomEvent := mkEvent { target : option Node; keyCode : option Z }.

(** The bound arrow functions of the instance that are used as listeners. *)
Inductive Callback := CbHandleClick | CbHandleScroll | CbCheckImage.

#[global] Instance Callback_eq_dec : EqDecision Callback.
Proof. solve_decision. Defined.

(** An entry of an event target's listener list: type, callback, capture. *)
Record Listener := mkListener {
  l_type : string; l_callback : Callback; l_capture : bool }.

#[global] Instance Listener_eq_dec : EqDecision Listener.
Proof. solve_decision. Defined.

Inductive EventTarget := Document | Root.

(** The overlay [<div>]: its identity and its inline style. *)
Record Element := mkElement { el_id : nat; el_style : gmap string string }.

(** ** Modules *)

(** Modelled from the spec: [./modules/DisplaySize] and [./modules/Resize]
    are not among the sources. A module is what the capability module
    interface says: a class the controller instantiates with itself as
    argument, with the hooks [onCreate], [onUpdate] and [onDestroy]; the
    bodies of the hooks are outside the controller, so a hook call is
    recorded in the trace and changes nothing the controller owns. *)
Inductive Ctor := DisplaySize | Resize | UserCtor (h : nat).

(** An entry of [options.modules]: a name or a class. *)
Inductive ModuleClass := ByName (s : string) | ByRef (c : Ctor).

Record ModuleInstance := mkInstance { inst_of : Ctor; inst_id : nat }.

Inductive Hook := OnCreate | OnUpdate | OnDestroy.

(** ** The trace of calls *)

Inductive Event :=
| EvExecCommand
| EvNew (m : ModuleInstance)                       (* new Ctor(this) *)
| EvHook (h : Hook) (m : ModuleInstance)           (* module.onX() *)
| EvSetSelection (index len : Z)                   (* quill.setSelection *)
| EvDeleteAt (n : Node) (offset : Z)               (* Quill.find(img).deleteAt *)
| EvAddListener (t : EventTarget) (l : Listener)
| EvRemoveListener (t : EventTarget) (l : Listener)
| EvCreateElement (e : nat)
| EvAppendChild (e : nat)
| EvRemoveChild (e : nat)
| EvAssignStyle (e : nat)                          (* Object.assign(overlay.style, ..) *)
| EvSetImg (i : option Node)                       (* this.img = .. *)
| EvPreventDefault.

(** ** The world *)

Record World := mkWorld {
  img : option Node;                    (* this.img *)
  overlay : option Element;             (* this.overlay *)
  modules : list ModuleInstance;        (* this.modules *)
  moduleClasses : list ModuleClass;     (* this.moduleClasses *)
  overlayStyles : gmap string string;   (* this.options.overlayStyles *)
  children : list nat;                  (* children of quill.root.parentNode *)
  docListeners : list Listener;         (* listeners of document *)
  rootListeners : list Listener;        (* listeners of quill.root *)
  layout : Layout;
  fresh : nat;                          (* next object identity *)
  trace : list Event
}.

Definition set_img (v : option Node) (w : World) : World :=
  mkWorld v (overlay w) (modules w) (moduleClasses w) (overlayStyles w)
    (children w) (docListeners w) (rootListeners w) (layout w) (fresh w) (trace w).
Definition set_overlay (v : option Element) (w : World) : World :=
  mkWorld (img w) v (modules w) (moduleClasses w) (overlayStyles w)
    (children w) (docListeners w) (rootListeners w) (layout w) (fresh w) (trace w).
Definition set_modules (v : list ModuleInstance) (w : World) : World :=
  mkWorld (img w) (overlay w) v (moduleClasses w) (overlayStyles w)
    (children w) (docListeners w) (rootListeners w) (layout w) (fresh w) (trace w).
Definition set_children (v : list nat) (w : World) : World :=
  mkWorld (img w) (overlay w) (modules w) (moduleClasses w) (overlayStyles w)
    v (docListeners w) (rootListeners w) (layout w) (fresh w) (trace w).
Definition set_docListeners (v : list Listener) (w : World) : World :=
  mkWorld (img w) (overlay w) (modules w) (moduleClasses w) (overlayStyles w)
    (children w) v (rootListeners w) (layout w) (fresh w) (trace w).
Definition set_rootListeners (v : list Listener) (w : World) : World :=
  mkWorld (img w) (overlay w) (modules w) (moduleClasses w) (overlayStyles w)
    (children w) (docListeners w) v (layout w) (fresh w) (trace w).
Definition set_layout (v : Layout) (w : World) : World :=
  mkWorld (img w) (overlay w) (modules w) (moduleClasses w) (overlayStyles w)
    (children w) (docListeners w) (rootListeners w) v (fresh w) (trace w).
Definition set_fresh (v : nat) (w : World) : World :=
  mkWorld (img w) (overlay w) (modules w) (moduleClasses w) (overlayStyles w)
    (children w) (docListeners w) (rootListeners w) (layout w) v (trace w).
Definition set_trace (v : list Event) (w : World) : World :=
  mkWorld (img w) (overlay w) (modules w) (moduleClasses w) (overlayStyles w)
    (children w) (docListeners w) (rootListeners w) (layout w) (fresh w) v.

(** ** The monad: state, and exceptions that keep the state reached *)

Inductive Exn := TypeError | NotFoundError.

Inductive Result (A : Type) :=
| Ok (a : A) (w : World)
| Throw (e : Exn) (w : World).
Arguments Ok {A} a w.
Arguments Throw {A} e w.

Definition M (A : Type) : Type := World -> Result A.

Definition state_of {A} (r : Result A) : World :=
  match r with Ok _ w => w | Throw _ w => w end.

#[global] Instance M_ret : MRet M := fun A a w => Ok a w.
#[global] Instance M_bind : MBind M := fun A B f m w =>
  match m w with
  | Ok a w' => f a w'
  | Throw e w' => Throw e w'
  end.

Definition gets {A} (f : World -> A) : M A := fun w => Ok (f w) w.
Definition modify (f : World -> World) : M unit := fun w => Ok tt (f w).
Definition throw {A} (e : Exn) : M A := fun w => Throw e w.
Definition log (e : Event) : M unit :=
  modify (fun w => set_trace (trace w ++ [e]) w).

(** [Array.prototype.forEach] *)
Fixpoint forEach {A} (l : list A) (f : A -> M unit) : M unit :=
  match l with
  | [] => mret tt
  | x :: l' => f x ;; forEach l' f
  end.

(** [Array.prototype.map] is stdpp's [mapM] at [M]. *)

(** ** DOM and host primitives *)

Definition listeners (t : EventTarget) (w : World) : list Listener :=
  match t with Document => docListeners w | Root => rootListeners w end.

Definition set_listeners (t : EventTarget) (ls : list Listener) : World -> World :=
  match t with Document => set_docListeners ls | Root => set_rootListeners ls end.

(** DOM: a listener is appended unless the list already holds one with
    the same type, callback and capture. *)
Definition add_listener (l : Listener) (ls : list Listener) : list Listener :=
  if decide (l ∈ ls) then ls else ls ++ [l].

(** DOM: the listener with the same type, callback and capture is removed. *)
Definition remove_listener (l : Listener) (ls : list Listener) : list Listener :=
  filter (fun x => x ≠ l) ls.

Definition addEventListener (t : EventTarget) (type : string) (cb : Callback)
    (capture : bool) : M unit :=
  let l := mkListener type cb capture in
  log (EvAddListener t l) ;;
  modify (fun w => set_listeners t (add_listener l (listeners t w)) w).

(** [capture] is [false] when the call leaves the third argument out. *)
Definition removeEventListener (t : EventTarget) (type : string) (cb : Callback)
    (capture : bool) : M unit :=
  let l := mkListener type cb capture in
  log (EvRemoveListener t l) ;;
  modify (fun w => set_listeners t (remove_listener l (listeners t w)) w).

(** [document.createElement('div')]: a new object with an empty style. *)
Definition createElement : M Element :=
  n ← gets fresh;
  modify (set_fresh (S n)) ;;
  log (EvCreateElement n) ;;
  mret (mkElement n ∅).

Definition appendChild (e : nat) : M unit :=
  log (EvAppendChild e) ;;
  modify (fun w => set_children (children w ++ [e]) w).

(** DOM: [removeChild] throws when the node is not a child. *)
Definition removeChild (e : nat) : M unit :=
  cs ← gets children;
  if decide (e ∈ cs) then
    log (EvRemoveChild e) ;;
    modify (set_children (filter (fun x => x ≠ e) cs))
  else throw NotFoundError.

(** [Object.assign(this.overlay.style, props)] *)
Definition assignStyle (props : gmap string string) : M unit :=
  o ← gets overlay;
  match o with
  | Some o =>
      log (EvAssignStyle (el_id o)) ;;
      modify (set_overlay (Some (mkElement (el_id o) (props ∪ el_style o))))
  | None => throw TypeError
  end.

Definition callHook (h : Hook) (m : ModuleInstance) : M unit := log (EvHook h m).

(** [const knownModules = { DisplaySize, Resize }] *)
Definition knownModules (s : string) : option Ctor :=
  if String.eqb s "DisplaySize" then Some DisplaySize
  else if String.eqb s "Resize" then Some Resize
  else None.

(** [knownModules[ModuleClass] || ModuleClass], when it is a class. *)
Definition resolve (mc : ModuleClass) : option Ctor :=
  match mc with
  | ByName s => knownModules s
  | ByRef c => Some c
  end.

(** [new (knownModules[ModuleClass] || ModuleClass)(this)]: a name that
    the table does not hold is a string, and [new] on it throws. *)
Definition construct (mc : ModuleClass) : M ModuleInstance :=
  match resolve mc with
  | Some c =>
      n ← gets fresh;
      modify (set_fresh (S n)) ;;
      log (EvNew (mkInstance c n)) ;;
      mret (mkInstance c n)
  | None => throw TypeError
  end.

(** The template literal [`${n}px`]. *)
Definition px (n : Z) : string := NilZero.string_of_int (Z.to_int n) +:+ "px".

(** [String.prototype.toUpperCase], on ASCII. *)
Definition upper_ascii (c : ascii) : ascii :=
  let n := nat_of_ascii c in
  if ((97 <=? n) && (n <=? 122))%nat then ascii_of_nat (n - 32) else c.

Fixpoint toUpperCase (s : string) : string :=
  match s with
  | EmptyString => EmptyString
  | String c s' => String (upper_ascii c) (toUpperCase s')
  end.

(** [if (c) { m }], and the truth value of a reference. *)
Definition when (c : bool) (m : M unit) : M unit := if c then m else mret tt.

Definition defined {A} (o : option A) : bool :=
  match o with Some _ => true | None => false end.

(** ** The class *)

Definition removeModules : M unit :=
  ms ← gets modules;
  forEach ms (callHook OnDestroy) ;;
  modify (set_modules []).

Definition repositionElements : M unit :=
  o ← gets overlay;
  i ← gets img;
  match o, i with
  | Some o, Some i =>
      (* position the overlay over the image *)
      pg ← gets layout;
      let imgRect := imgRect pg i in
      let containerRect := containerRect pg in
      assignStyle
        {[ "left" := px (r_left imgRect - r_left containerRect - 1 + scrollLeft pg);
           "top" := px (r_top imgRect - r_top containerRect + scrollTop pg);
           "width" := px (r_width imgRect);
           "height" := px (r_height imgRect) ]}
  | _, _ => mret tt
  end.

Definition onUpdate : M unit :=
  repositionElements ;;
  ms ← gets modules;
  forEach ms (callHook OnUpdate).

Definition initializeModules : M unit :=
  removeModules ;;
  cs ← gets moduleClasses;
  ms ← mapM construct cs;
  modify (set_modules ms) ;;
  ms ← gets modules;
  forEach ms (callHook OnCreate) ;;
  onUpdate.

Definition hideOverlay : M unit :=
  o ← gets overlay;
  match o with
  | None => mret tt
  | Some o =>
      (* Remove the overlay *)
      removeChild (el_id o) ;;
      modify (set_overlay None) ;;
      (* stop listening for image deletion or movement *)
      removeEventListener Document "keyup" CbCheckImage false ;;
      removeEventListener Root "input" CbCheckImage false
  end.

Definition showOverlay : M unit :=
  o ← gets overlay;
  when (defined o) hideOverlay ;;
  i ← gets img;
  match i with
  | None => throw TypeError      (* quill.getIndex(null) *)
  | Some i =>
      pg ← gets layout;
      log (EvSetSelection (getIndex pg i) 0) ;;
      (* listen for the image being deleted or moved *)
      addEventListener Document "keyup" CbCheckImage true ;;
      addEventListener Root "input" CbCheckImage true ;;
      (* Create and add the overlay *)
      o ← createElement;
      modify (set_overlay (Some o)) ;;
      styles ← gets overlayStyles;
      assignStyle styles ;;
      appendChild (el_id o) ;;
      repositionElements
  end.

Definition hide : M unit :=
  hideOverlay ;;
  removeModules ;;
  log (EvSetImg None) ;;
  modify (set_img None).

Definition show (i : Node) : M unit :=
  (* keep track of this img element *)
  log (EvSetImg (Some i)) ;;
  modify (set_img (Some i)) ;;
  showOverlay ;;
  initializeModules.

(** [t.tagName && t.tagName.toUpperCase() === 'IMG'] *)
Definition is_img (t : Node) : bool :=
  match tagName t with
  | Some s => negb (String.eqb s "") && String.eqb (toUpperCase s) "IMG"
  | None => false
  end.

Definition handleClick (evt : DomEvent) : M unit :=
  i ← gets img;
  match target evt with
  | Some t =>
      if is_img t then
        if decide (i = Some t) then
          (* we are already focused on this image *)
          mret tt
        else
          (* we were just focused on another image *)
          when (defined i) hide ;;
          (* clicked on an image inside the editor *)
          show t ;;
          log EvPreventDefault
      else when (defined i) hide
  | None => when (defined i) hide
  end.

Definition handleScroll : M unit := hide.

(** [evt.keyCode == 46 || evt.keyCode == 8] *)
Definition is_delete_key (evt : DomEvent) : bool :=
  match keyCode evt with
  | Some k => (k =? 46) || (k =? 8)
  | None => false
  end.

Definition checkImage (evt : DomEvent) : M unit :=
  i ← gets img;
  match i with
  | Some i =>
      when (is_delete_key evt) (log (EvDeleteAt i 0)) ;;
      hide
  | None => mret tt
  end.

(** The arrow function given to [quill.on('text-change', ..)]. *)
Definition onTextChange : M unit := repositionElements.

(** [setUserSelect] writes no field of the instance: its state is the two
    style objects it assigns to. *)

(** The inline styles [setUserSelect] writes: that of [quill.root] and
    that of [document.documentElement], as property maps. *)
Record PageStyles := mkPageStyles {
  rootStyle : gmap string string;       (* this.quill.root.style *)
  htmlStyle : gmap string string        (* document.documentElement.style *)
}.

Definition userSelectProps : list string :=
  ["userSelect"; "mozUserSelect"; "webkitUserSelect"; "msUserSelect"].

Definition setUserSelect (value : string) (s : PageStyles) : PageStyles :=
  foldl
    (fun s prop =>
       (* set on contenteditable element and <html> *)
       mkPageStyles (<[prop := value]> (rootStyle s)) (<[prop := value]> (htmlStyle s)))
    s userSelectProps.

(** ** Construction *)

(** Modelled from the spec: [./DefaultOptions] is not among the sources;
    its two recognised options are the ordered module list and the style
    map applied to the overlay, and it is taken as a parameter. *)
Record Defaults := mkDefaults {
  d_modules : list ModuleClass;
  d_overlayStyles : gmap string string }.

(** The [options] argument; [modules] may be left out. *)
Record Options := mkOptions {
  opt_modules : option (list ModuleClass);
  opt_overlayStyles : gmap string string }.

(** The world a new instance starts from: nothing selected, the editor
    root (object 0) the only child of its container. *)
Definition blank (classes : list ModuleClass) (styles : gmap string string)
    (pg : Layout) : World :=
  mkWorld None None [] classes styles [0%nat] [] [] pg 1%nat [].

Definition constructor (DefaultOptions : Defaults) (options : Options)
    (pg : Layout) : World :=
  (* the classes array of the options replaces the default one *)
  let moduleClasses :=
    match opt_modules options with
    | Some ms => ms
    | None => d_modules DefaultOptions
    end in
  let overlayStyles := opt_overlayStyles options ∪ d_overlayStyles DefaultOptions in
  state_of
    ((* disable native image resizing on firefox *)
     (log EvExecCommand ;;
      (* respond to clicks inside the editor *)
      addEventListener Root "click" CbHandleClick false ;;
      addEventListener Root "mscontrolselect" CbHandleClick false ;;
      addEventListener Root "scroll" CbHandleScroll false)
       (blank moduleClasses overlayStyles pg)).

(** [parentNode.style.position = parentNode.style.position || 'relative'],
    on the inline style of the container; an unset property reads as the
    empty string. *)
Definition initPosition (style : gmap string string) : gmap string string :=
  let position := default "" (style !! "position") in
  <["position" := if String.eqb position "" then "relative" else position]> style.

(** ** Events reaching the instance *)

Definition invoke (cb : Callback) (evt : DomEvent) : M unit :=
  match cb with
  | CbHandleClick => handleClick evt
  | CbHandleScroll => handleScroll
  | CbCheckImage => checkImage evt
  end.

(** What a listener throws is reported and the dispatch goes on. *)
Definition guarded (m : M unit) : M unit := fun w => Ok tt (state_of (m w)).

(** DOM dispatch of an event of the given type at a target: the listeners
    of that type run in the order of the list. *)
Definition dispatch (t : EventTarget) (type : string) (evt : DomEvent) : M unit :=
  ls ← gets (listeners t);
  forEach (filter (fun l => l_type l = type) ls)
    (fun l => guarded (invoke (l_callback l) evt)).

Inductive Signal :=
| Click (evt : DomEvent)
| MsControlSelect (evt : DomEvent)
| Scroll (evt : DomEvent)
| KeyUp (evt : DomEvent)
| Input (evt : DomEvent)
| TextChange
| Relayout (pg : Layout).

Definition handle (s : Signal) : M unit :=
  match s with
  | Click evt => dispatch Root "click" evt
  | MsControlSelect evt => dispatch Root "mscontrolselect" evt
  | Scroll evt => dispatch Root "scroll" evt
  | KeyUp evt => dispatch Document "keyup" evt
  | Input evt => dispatch Root "input" evt
  | TextChange => guarded onTextChange
  | Relayout pg => modify (set_layout pg)
  end.

Definition step (s : Signal) (w : World) : World := state_of (handle s w).

Definition run (ss : list Signal) (w : World) : World :=
  foldl (fun w s => step s w) w ss.

(** The calls made between two worlds of one run. *)
Definition since (w w' : World) : list Event :=
  drop (length (trace w)) (trace w').

(** ** Vocabulary of the properties *)

(** The object literal that [repositionElements] assigns. *)
Definition geometry (pg : Layout) (i : Node) : gmap string string :=
  {[ "left" := px (r_left (imgRect pg i) - r_left (containerRect pg) - 1 + scrollLeft pg);
     "top" := px (r_top (imgRect pg i) - r_top (containerRect pg) + scrollTop pg);
     "width" := px (r_width (imgRect pg i));
     "height" := px (r_height (imgRect pg i)) ]}.

(** The overlay after [repositionElements], and the call it makes. *)
Definition repositioned (w : World) : option Element :=
  match overlay w, img w with
  | Some o, Some i => Some (mkElement (el_id o) (geometry (layout w) i ∪ el_style o))
  | _, _ => overlay w
  end.

Definition repositionCalls (w : World) : list Event :=
  match overlay w, img w with
  | Some o, Some _ => [EvAssignStyle (el_id o)]
  | _, _ => []
  end.

(** The listeners [showOverlay] registers, and those of the constructor. *)
Definition keyupL : Listener := mkListener "keyup" CbCheckImage true.
Definition inputL : Listener := mkListener "input" CbCheckImage true.
Definition baseListeners : list Listener :=
  [ mkListener "click" CbHandleClick false;
    mkListener "mscontrolselect" CbHandleClick false;
    mkListener "scroll" CbHandleScroll false ].

(** The two listener lists, before and after the first selection. *)
Definition docWired (armed : bool) : list Listener :=
  if armed then [keyupL] else [].
Definition rootWired (armed : bool) : list Listener :=
  baseListeners ++ (if armed then [inputL] else []).

(** The calls of [hideOverlay] on an existing overlay. *)
Definition overlayRemoval (e : nat) : list Event :=
  [ EvRemoveChild e;
    EvRemoveListener Document (mkListener "keyup" CbCheckImage false);
    EvRemoveListener Root (mkListener "input" CbCheckImage false) ].

(** The calls of [showOverlay] once no overlay is left. *)
Definition overlayCreation (pg : Layout) (i : Node) (e : nat) : list Event :=
  [ EvSetSelection (getIndex pg i) 0;
    EvAddListener Document keyupL;
    EvAddListener Root inputL;
    EvCreateElement e; EvAssignStyle e; EvAppendChild e; EvAssignStyle e ].

(** Calls that belong to setting a selection up, and to tearing one down. *)
Definition is_setup (e : Event) : bool :=
  match e with
  | EvNew _ | EvHook OnCreate _ | EvHook OnUpdate _ | EvSetSelection _ _
  | EvAddListener _ _ | EvCreateElement _ | EvAppendChild _ | EvAssignStyle _
  | EvSetImg (Some _) | EvPreventDefault => true
  | _ => false
  end.




(** The instances that [new] makes of a list of classes, from identity [n]. *)
Fixpoint instances (cs : list Ctor) (n : nat) : list ModuleInstance :=
  match cs with
  | [] => []
  | c :: cs' => mkInstance c n :: instances cs' (S n)
  end.

(** The calls of [hide], and the world it leaves. *)
Definition teardown (w : World) : list Event :=
  match overlay w with Some o => overlayRemoval (el_id o) | None => [] end
    ++ map (EvHook OnDestroy) (modules w) ++ [EvSetImg None].

Definition afterHide (w : World) : World :=
  mkWorld None None [] (moduleClasses w) (overlayStyles w)
    (match overlay w with
     | Some o => filter (fun x => x ≠ el_id o) (children w)
     | None => children w
     end)
    (docListeners w) (rootListeners w) (layout w) (fresh w)
    (trace w ++ teardown w).

(** The world in which [handleClick] sets a new selection up. *)
Definition cleared (w : World) : World :=
  if defined (img w) then afterHide w else w.

(** What holds of every world a run reaches. *)
Definition Inv (w : World) : Prop :=
  exists armed,
    docListeners w = docWired armed /\
    rootListeners w = rootWired armed /\
    match img w with
    | None => overlay w = None /\ modules w = []
    | Some a =>
        armed = true /\ is_img a = true /\
        exists o, overlay w = Some o /\ el_id o ∈ children w
    end.

(** An activation signal aimed at node [t]. *)
Definition targets (t : Node) (s : Signal) : Prop :=
  exists evt, (s = Click evt \/ s = MsControlSelect evt) /\ target evt = Some t.



(** Overlay creation as the specification words it: nothing happens when
    an overlay exists. *)
Definition create_is_noop_on_existing (w : World) : Prop :=
  defined (overlay w) = true -> showOverlay w = Ok tt w.


(** The world [hideOverlay] leaves, and the one [showOverlay] builds for
    image [i] from a world without overlay. *)
Definition withoutOverlay (w : World) : World :=
  match overlay w with
  | Some o =>
      mkWorld (img w) None (modules w) (moduleClasses w) (overlayStyles w)
        (filter (fun x => x ≠ el_id o) (children w))
        (remove_listener (mkListener "keyup" CbCheckImage false) (docListeners w))
        (remove_listener (mkListener "input" CbCheckImage false) (rootListeners w))
        (layout w) (fresh w) (trace w ++ overlayRemoval (el_id o))
  | None => w
  end.

Definition withNewOverlay (i : Node) (w : World) : World :=
  mkWorld (Some i)
    (Some (mkElement (fresh w) (geometry (layout w) i ∪ (overlayStyles w ∪ ∅))))
    (modules w) (moduleClasses w) (overlayStyles w)
    (children w ++ [fresh w])
    (add_listener keyupL (docListeners w))
    (add_listener inputL (rootListeners w))
    (layout w) (S (fresh w))
    (trace w ++ overlayCreation (layout w) i (fresh w)).

(** ** Vocabulary of the further properties *)

(** What no method writes: the configuration and the layout; identities
    are only ever allocated. *)
Definition frame (w w' : World) : Prop :=
  moduleClasses w' = moduleClasses w /\
  overlayStyles w' = overlayStyles w /\
  layout w' = layout w /\
  (fresh w <= fresh w')%nat.

Definition keeps {A} (m : M A) : Prop := forall w, frame w (state_of (m w)).

(** The layout the page has after the signals [ss]. *)
Definition lastLayout (ss : list Signal) (pg : Layout) : Layout :=
  foldl (fun pg s => match s with Relayout pg' => pg' | _ => pg end) pg ss.

(** The children of the container: the editor root and the overlay. *)
Definition containerChildren (w : World) : list nat :=
  0%nat :: match overlay w with Some o => [el_id o] | None => [] end.

Definition Tidy (w : World) : Prop :=
  (1 <= fresh w)%nat /\
  children w = containerChildren w /\
  (forall o, overlay w = Some o -> el_id o ≠ 0%nat).

Definition is_new (e : Event) : bool :=
  match e with EvNew _ => true | _ => false end.

(** The world after image [t] is selected in a world [w] where nothing is
    selected and every configured class [cs] resolves. *)
Definition selected (t : Node) (cs : list Ctor) (w : World) : World :=
  let ms := instances cs (S (fresh w)) in
  mkWorld (Some t)
    (Some (mkElement (fresh w)
             (geometry (layout w) t ∪ (geometry (layout w) t ∪ (overlayStyles w ∪ ∅)))))
    ms (moduleClasses w) (overlayStyles w) (children w ++ [fresh w])
    (add_listener keyupL (docListeners w)) (add_listener inputL (rootListeners w))
    (layout w) (S (fresh w) + length cs)
    (trace w ++ EvSetImg (Some t) :: overlayCreation (layout w) t (fresh w)
       ++ map EvNew ms ++ map (EvHook OnCreate) ms
       ++ [EvAssignStyle (fresh w)] ++ map (EvHook OnUpdate) ms).

(** The world after the selection of [t] stopped at a [new] that threw:
    [n] identities are used, [evs] are the constructions made. *)
Definition halfSelected (t : Node) (n : nat) (evs : list Event) (w : World) : World :=
  mkWorld (Some t)
    (Some (mkElement (fresh w) (geometry (layout w) t ∪ (overlayStyles w ∪ ∅))))
    [] (moduleClasses w) (overlayStyles w) (children w ++ [fresh w])
    (add_listener keyupL (docListeners w)) (add_listener inputL (rootListeners w))
    (layout w) n
    (trace w ++ EvSetImg (Some t) :: overlayCreation (layout w) t (fresh w) ++ evs).

(** The four cases of an activation signal in a reachable world. *)
Inductive ClickCase (evt : DomEvent) (w : World) : World -> Prop :=
| click_same t :
    target evt = Some t -> is_img t = true -> img w = Some t ->
    ClickCase evt w w
| click_away :
    match target evt with Some t => is_img t = false | None => True end ->
    ClickCase evt w (cleared w)
| click_select t cs :
    target evt = Some t -> is_img t = true -> img w ≠ Some t ->
    mapM resolve (moduleClasses w) = Some cs ->
    ClickCase evt w
      (set_trace (trace (selected t cs (cleared w)) ++ [EvPreventDefault])
         (selected t cs (cleared w)))
| click_throw t n evs :
    target evt = Some t -> is_img t = true -> img w ≠ Some t ->
    mapM resolve (moduleClasses w) = None -> forallb is_new evs = true ->
    (fresh w < n)%nat ->
    ClickCase evt w (halfSelected t n evs (cleared w)).

(** The cases of any signal in a reachable world. *)
Inductive StepCase (w : World) : Signal -> World -> Prop :=
| sc_click evt w' : ClickCase evt w w' -> StepCase w (Click evt) w'
| sc_ms evt w' : ClickCase evt w w' -> StepCase w (MsControlSelect evt) w'
| sc_scroll evt : StepCase w (Scroll evt) (afterHide w)
| sc_key_idle evt : img w = None -> StepCase w (KeyUp evt) w
| sc_input_idle evt : img w = None -> StepCase w (Input evt) w
| sc_key evt a :
    img w = Some a ->
    StepCase w (KeyUp evt)
      (afterHide (if is_delete_key evt
                  then set_trace (trace w ++ [EvDeleteAt a 0]) w else w))
| sc_input evt a :
    img w = Some a ->
    StepCase w (Input evt)
      (afterHide (if is_delete_key evt
                  then set_trace (trace w ++ [EvDeleteAt a 0]) w else w))
| sc_text :
    StepCase w TextChange
      (set_overlay (repositioned w) (set_trace (trace w ++ repositionCalls w) w))
| sc_relayout pg : StepCase w (Relayout pg) (set_layout pg w).




(** One live instance per class while an image is selected. *)
Definition Staffed (cs : list Ctor) (w : World) : Prop :=
  mapM resolve (moduleClasses w) = Some cs /\
  match img w with
  | Some _ => map inst_of (modules w) = cs
  | None => modules w = []
  end.



Definition is_userSelect (k : string) : bool :=
  bool_decide (k ∈ userSelectProps).

#[global] Instance Ctor_eq_dec : EqDecision Ctor.
Proof. solve_decision. Defined.

#[global] Instance ModuleInstance_eq_dec : EqDecision ModuleInstance.
Proof. solve_decision. Defined.






(** ** A page to try things on *)

Module Sample.

Definition imgA : Node := mkNode 10 (Some "IMG").
Definition imgB : Node := mkNode 11 (Some "img").
Definition para : Node := mkNode 12 (Some "P").

Definition page : Layout :=
  mkLayout (fun _ => mkRect 110 40 200 150) (mkRect 100 20 600 400) 5 0
    (fun n => Z.of_nat (node_id n)).

Definition defaults : Defaults :=
  mkDefaults [ByName "DisplaySize"; ByName "Resize"]
    {[ "position" := "absolute"; "border" := "1px dashed #444" ]}.

Definition w0 : World := constructor defaults (mkOptions None ∅) page.

Definition click (n : Node) : Signal := Click (mkEvent (Some n) None).

(** one image selected, and its overlay *)
Definition w1 : World := run [click imgA] w0.


End Sample.

(** ** Symbolic execution *)

Declare Reduction exec_red :=
  lazy beta iota zeta delta
    [mbind M_bind mret M_ret gets modify throw log when defined state_of
     set_img set_overlay set_modules set_children set_docListeners
     set_rootListeners set_layout set_fresh set_trace set_listeners listeners
     img overlay modules moduleClasses overlayStyles children docListeners
     rootListeners layout fresh trace el_id el_style
     addEventListener removeEventListener createElement appendChild
     removeChild assignStyle callHook
     removeModules repositionElements onUpdate initializeModules hideOverlay
     showOverlay hide show handleClick handleScroll checkImage onTextChange].

Declare Reduction world_red :=
  lazy beta iota zeta delta
    [set_img set_overlay set_modules set_children set_docListeners
     set_rootListeners set_layout set_fresh set_trace set_listeners listeners
     img overlay modules moduleClasses overlayStyles children docListeners
     rootListeners layout fresh trace el_id el_style].

Tactic Notation "exec" :=
  match goal with |- ?G => let G' := eval exec_red in G in change G' end.
Tactic Notation "exec" "in" hyp(H) :=
  let T := type of H in let T' := eval exec_red in T in change T' in H.
Tactic Notation "wsimpl" :=
  match goal with |- ?G => let G' := eval world_red in G in change G' end.
Tactic Notation "wsimpl" "in" hyp(H) :=
  let T := type of H in let T' := eval world_red in T in change T' in H.

Ltac unfold_m :=
  unfold mbind, M_bind, mret, M_ret, gets, modify, throw, log, when.

(** * Lemmas *)

(** ** The model on the sample page *)

Example px_14 : px 14 = "14px" /\ px 0 = "0px" /\ px (-3) = "-3px".
Proof. repeat split. Qed.

Example is_img_cases :
  is_img Sample.imgA = true /\ is_img Sample.imgB = true /\
  is_img Sample.para = false /\ is_img (mkNode 13 None) = false /\
  is_img (mkNode 14 (Some "")) = false.
Proof. vm_compute. done. Qed.

Example resolve_cases :
  resolve (ByName "DisplaySize") = Some DisplaySize /\
  resolve (ByName "Resize") = Some Resize /\
  resolve (ByRef (UserCtor 7)) = Some (UserCtor 7) /\
  resolve (ByName "Toolbar") = None.
Proof. vm_compute. done. Qed.

(** The calls of the first click on an image. *)
Example first_selection :
  since Sample.w0 Sample.w1 =
  let A := mkInstance DisplaySize 2 in
  let B := mkInstance Resize 3 in
  [ EvSetImg (Some Sample.imgA); EvSetSelection 10 0;
    EvAddListener Document keyupL; EvAddListener Root inputL;
    EvCreateElement 1; EvAssignStyle 1; EvAppendChild 1; EvAssignStyle 1;
    EvNew A; EvNew B; EvHook OnCreate A; EvHook OnCreate B;
    EvAssignStyle 1; EvHook OnUpdate A; EvHook OnUpdate B;
    EvPreventDefault ].
Proof. vm_compute. reflexivity. Qed.

(** The calls of a click on a paragraph while the image is selected. *)
Example first_deselection :
  since Sample.w1 (step (Sample.click Sample.para) Sample.w1) =
  [ EvRemoveChild 1;
    EvRemoveListener Document (mkListener "keyup" CbCheckImage false);
    EvRemoveListener Root (mkListener "input" CbCheckImage false);
    EvHook OnDestroy (mkInstance DisplaySize 2);
    EvHook OnDestroy (mkInstance Resize 3);
    EvSetImg None ].
Proof. vm_compute. reflexivity. Qed.

(** A name the table does not hold: the second [new] throws after the
    first instance is made; the image and the overlay stay, no module is
    kept and no hook is called. *)
Example unknown_module_name :
  let w := constructor Sample.defaults
             (mkOptions (Some [ByName "Resize"; ByName "Toolbar"]) ∅) Sample.page in
  exists w',
    show Sample.imgA w = Throw TypeError w' /\
    img w' = Some Sample.imgA /\ defined (overlay w') = true /\ modules w' = [] /\
    since w w' =
      [ EvSetImg (Some Sample.imgA); EvSetSelection 10 0;
        EvAddListener Document keyupL; EvAddListener Root inputL;
        EvCreateElement 1; EvAssignStyle 1; EvAppendChild 1; EvAssignStyle 1;
        EvNew (mkInstance Resize 2) ].
Proof. eexists. split; [vm_compute; reflexivity|]. vm_compute. done. Qed.

(** ** Hooks and repositioning *)

Lemma set_trace_id w : set_trace (trace w ++ []) w = w.
Proof. destruct w; unfold set_trace; cbn. by rewrite app_nil_r. Qed.

Lemma forEach_hook h ms w :
  forEach ms (callHook h) w = Ok tt (set_trace (trace w ++ map (EvHook h) ms) w).
Proof.
  revert w; induction ms as [|m ms IH]; intros w; cbn.
  - by rewrite set_trace_id.
  - unfold callHook at 1. unfold_m. cbn. rewrite IH. destruct w; cbn.
    unfold set_trace; cbn. by rewrite <- app_assoc.
Qed.

Lemma removeModules_eq w :
  removeModules w =
  Ok tt (set_modules [] (set_trace (trace w ++ map (EvHook OnDestroy) (modules w)) w)).
Proof.
  unfold removeModules. unfold_m. rewrite forEach_hook. reflexivity.
Qed.

Lemma repositionElements_eq w :
  repositionElements w =
  match overlay w, img w with
  | Some o, Some i =>
      Ok tt (set_overlay (Some (mkElement (el_id o) (geometry (layout w) i ∪ el_style o)))
               (set_trace (trace w ++ [EvAssignStyle (el_id o)]) w))
  | _, _ => Ok tt w
  end.
Proof.
  unfold repositionElements, assignStyle. unfold_m.
  destruct w as [i o ms cs st ch dl rl pg fr tr]; cbn.
  destruct o as [o|], i as [i|]; reflexivity.
Qed.

(** ** The listener lists *)

Lemma remove_keyup armed :
  remove_listener (mkListener "keyup" CbCheckImage false) (docWired armed) = docWired armed.
Proof. by destruct armed. Qed.

Lemma remove_input armed :
  remove_listener (mkListener "input" CbCheckImage false) (rootWired armed) = rootWired armed.
Proof. by destruct armed. Qed.

Lemma add_keyup armed : add_listener keyupL (docWired armed) = docWired true.
Proof. by destruct armed. Qed.

Lemma add_input armed : add_listener inputL (rootWired armed) = rootWired true.
Proof. by destruct armed. Qed.

(** ** [hideOverlay] and [hide] as equations *)

Lemma hideOverlay_eq w o :
  overlay w = Some o -> el_id o ∈ children w ->
  hideOverlay w =
  Ok tt (mkWorld (img w) None (modules w) (moduleClasses w) (overlayStyles w)
           (filter (fun x => x ≠ el_id o) (children w))
           (remove_listener (mkListener "keyup" CbCheckImage false) (docListeners w))
           (remove_listener (mkListener "input" CbCheckImage false) (rootListeners w))
           (layout w) (fresh w) (trace w ++ overlayRemoval (el_id o))).
Proof.
  intros Ho Hin. unfold hideOverlay, removeChild, removeEventListener. unfold_m.
  destruct w as [i ov ms cs st ch dl rl pg fr tr]; cbn in *. subst ov.
  rewrite decide_True by done. cbn.
  unfold set_trace, set_listeners; cbn. rewrite <- !app_assoc. reflexivity.
Qed.

Lemma hideOverlay_none w : overlay w = None -> hideOverlay w = Ok tt w.
Proof. intros H. unfold hideOverlay. unfold_m. by rewrite H. Qed.

Lemma hide_eq w o :
  overlay w = Some o -> el_id o ∈ children w ->
  hide w =
  Ok tt (mkWorld None None [] (moduleClasses w) (overlayStyles w)
           (filter (fun x => x ≠ el_id o) (children w))
           (remove_listener (mkListener "keyup" CbCheckImage false) (docListeners w))
           (remove_listener (mkListener "input" CbCheckImage false) (rootListeners w))
           (layout w) (fresh w)
           (trace w ++ overlayRemoval (el_id o)
              ++ map (EvHook OnDestroy) (modules w) ++ [EvSetImg None])).
Proof.
  intros Ho Hin. unfold hide. unfold mbind, M_bind.
  rewrite (hideOverlay_eq w o Ho Hin), removeModules_eq. unfold_m. cbn.
  unfold set_trace, set_img; cbn. by rewrite <- !app_assoc.
Qed.

Lemma hide_idle w :
  overlay w = None -> modules w = [] ->
  hide w = Ok tt (set_img None (set_trace (trace w ++ [EvSetImg None]) w)).
Proof.
  intros Ho Hm. unfold hide. unfold mbind, M_bind.
  rewrite (hideOverlay_none w Ho), removeModules_eq. unfold_m. cbn.
  destruct w; cbn in *; subst. unfold set_trace, set_img, set_modules; cbn.
  by rewrite app_nil_r.
Qed.

(** ** [onUpdate] and module construction *)

Lemma repositionElements_eq' w :
  repositionElements w =
  Ok tt (set_overlay (repositioned w) (set_trace (trace w ++ repositionCalls w) w)).
Proof.
  rewrite repositionElements_eq. unfold repositioned, repositionCalls.
  destruct w as [i o ms cs st ch dl rl pg fr tr]; cbn.
  destruct o as [o|], i as [i|]; try reflexivity;
    unfold set_overlay, set_trace; cbn; by rewrite app_nil_r.
Qed.

Lemma onUpdate_eq w :
  onUpdate w =
  Ok tt (set_overlay (repositioned w)
           (set_trace (trace w ++ repositionCalls w ++ map (EvHook OnUpdate) (modules w)) w)).
Proof.
  unfold onUpdate. unfold mbind, M_bind. rewrite repositionElements_eq'.
  unfold gets. rewrite forEach_hook. cbn. unfold set_overlay, set_trace; cbn.
  by rewrite <- app_assoc.
Qed.

Lemma mapM_cons {A B} (f : A -> M B) x l w :
  mapM f (x :: l) w =
  match f x w with
  | Ok y w1 =>
      match mapM f l w1 with
      | Ok ys w2 => Ok (y :: ys) w2
      | Throw e w2 => Throw e w2
      end
  | Throw e w1 => Throw e w1
  end.
Proof. reflexivity. Qed.

Lemma construct_eq mc w :
  construct mc w =
  match resolve mc with
  | Some c =>
      Ok (mkInstance c (fresh w))
         (set_fresh (S (fresh w))
            (set_trace (trace w ++ [EvNew (mkInstance c (fresh w))]) w))
  | None => Throw TypeError w
  end.
Proof. unfold construct. by destruct (resolve mc). Qed.

Lemma mapM_construct_ok mcs : forall cs w,
  mapM resolve mcs = Some cs ->
  mapM construct mcs w =
  Ok (instances cs (fresh w))
     (set_fresh (fresh w + length cs)
        (set_trace (trace w ++ map EvNew (instances cs (fresh w))) w)).
Proof.
  induction mcs as [|mc mcs IH]; intros cs w H; cbn in H.
  - injection H as <-. cbn. unfold mret, M_ret. f_equal.
    destruct w; unfold set_fresh, set_trace; cbn. by rewrite app_nil_r, Nat.add_0_r.
  - destruct (resolve mc) as [c|] eqn:Hc; [|done]. cbn in H.
    destruct (mapM resolve mcs) as [cs'|] eqn:Hcs; [|done]. cbn in H.
    injection H as <-. rewrite mapM_cons, construct_eq, Hc, (IH cs' _ eq_refl).
    destruct w; unfold set_fresh, set_trace; cbn.
    rewrite <- app_assoc. cbn. do 3 f_equal. lia.
Qed.

Lemma mapM_construct_shape mcs : forall w,
  exists n evs,
    state_of (mapM construct mcs w) = set_fresh n (set_trace (trace w ++ evs) w)
    /\ forallb is_setup evs = true.
Proof.
  induction mcs as [|mc mcs IH]; intros w.
  - exists (fresh w), []. split; [|done]. cbn.
    destruct w; unfold set_fresh, set_trace; cbn. by rewrite app_nil_r.
  - rewrite mapM_cons, construct_eq. destruct (resolve mc) as [c|].
    + set (w1 := set_fresh _ _).
      destruct (IH w1) as (n & evs & Hst & Hall).
      exists n, (EvNew (mkInstance c (fresh w)) :: evs). split; [|done].
      destruct (mapM construct mcs w1) as [ms w2|e w2]; cbn in *; subst w2 w1;
        destruct w; unfold set_fresh, set_trace; cbn; by rewrite <- app_assoc.
    + exists (fresh w), []. split; [|done]. cbn.
      destruct w; unfold set_fresh, set_trace; cbn. by rewrite app_nil_r.
Qed.

Lemma initializeModules_unfold w :
  initializeModules w =
  match mapM construct (moduleClasses w)
          (set_modules [] (set_trace (trace w ++ map (EvHook OnDestroy) (modules w)) w)) with
  | Ok ms w1 =>
      onUpdate (set_trace (trace w1 ++ map (EvHook OnCreate) ms) (set_modules ms w1))
  | Throw e w1 => Throw e w1
  end.
Proof.
  unfold initializeModules. unfold mbind at 1, M_bind at 1. rewrite removeModules_eq.
  unfold mbind at 1, M_bind at 1, gets at 1. cbn [moduleClasses set_modules set_trace].
  unfold mbind at 1, M_bind at 1.
  destruct (mapM construct _ _) as [ms w1|e w1]; [|done].
  unfold_m. rewrite forEach_hook. reflexivity.
Qed.

Lemma repositioned_ids w :
  option_map el_id (repositioned w) = option_map el_id (overlay w).
Proof. unfold repositioned. by destruct (overlay w), (img w). Qed.

Lemma forallb_hooks h ms :
  h ≠ OnDestroy -> forallb is_setup (map (EvHook h) ms) = true.
Proof. intros Hh. induction ms; [done|]. cbn. rewrite IHms. by destruct h. Qed.

Lemma forallb_repositionCalls w : forallb is_setup (repositionCalls w) = true.
Proof. unfold repositionCalls. by destruct (overlay w), (img w). Qed.

Lemma initializeModules_ok w cs :
  mapM resolve (moduleClasses w) = Some cs ->
  initializeModules w =
  Ok tt (mkWorld (img w) (repositioned w) (instances cs (fresh w))
           (moduleClasses w) (overlayStyles w) (children w)
           (docListeners w) (rootListeners w) (layout w) (fresh w + length cs)
           (trace w ++ map (EvHook OnDestroy) (modules w)
              ++ map EvNew (instances cs (fresh w))
              ++ map (EvHook OnCreate) (instances cs (fresh w))
              ++ repositionCalls w
              ++ map (EvHook OnUpdate) (instances cs (fresh w)))).
Proof.
  intros H. rewrite initializeModules_unfold.
  rewrite (mapM_construct_ok _ cs) by exact H. rewrite onUpdate_eq.
  destruct w; unfold repositioned, repositionCalls; cbn.
  by rewrite <- !app_assoc.
Qed.

Lemma initializeModules_shape w :
  exists ov ms n evs,
    state_of (initializeModules w) =
      mkWorld (img w) ov ms (moduleClasses w) (overlayStyles w) (children w)
        (docListeners w) (rootListeners w) (layout w) n
        (trace w ++ map (EvHook OnDestroy) (modules w) ++ evs)
    /\ forallb is_setup evs = true
    /\ option_map el_id ov = option_map el_id (overlay w).
Proof.
  rewrite initializeModules_unfold.
  set (w0 := set_modules [] _).
  destruct (mapM_construct_shape (moduleClasses w) w0) as (n & evs & Hst & Hall).
  destruct (mapM construct (moduleClasses w) w0) as [ms w1|e w1]; cbn in Hst; subst w1.
  - rewrite onUpdate_eq.
    eexists (repositioned w), ms, n,
      (evs ++ map (EvHook OnCreate) ms ++ repositionCalls w ++ map (EvHook OnUpdate) ms).
    split; [|split].
    + subst w0. destruct w; unfold repositioned, repositionCalls; cbn.
      by rewrite <- !app_assoc.
    + rewrite !forallb_app, Hall, forallb_repositionCalls, !forallb_hooks; done.
    + apply repositioned_ids.
  - exists (overlay w), [], n, evs. split; [|done].
    subst w0. destruct w; cbn. by rewrite <- !app_assoc.
Qed.

(** ** [showOverlay] and [show] *)

Lemma showOverlay_fresh w i :
  overlay w = None -> img w = Some i ->
  showOverlay w =
  Ok tt (mkWorld (Some i)
           (Some (mkElement (fresh w) (geometry (layout w) i ∪ (overlayStyles w ∪ ∅))))
           (modules w) (moduleClasses w) (overlayStyles w)
           (children w ++ [fresh w])
           (add_listener keyupL (docListeners w))
           (add_listener inputL (rootListeners w))
           (layout w) (S (fresh w))
           (trace w ++ overlayCreation (layout w) i (fresh w))).
Proof.
  intros Ho Hi. destruct w as [i0 ov ms cs st ch dl rl pg fr tr]; cbn in Ho, Hi; subst.
  exec. unfold geometry, overlayCreation.
  by rewrite <- !app_assoc.
Qed.

Lemma showOverlay_replace w o i :
  overlay w = Some o -> el_id o ∈ children w -> img w = Some i ->
  showOverlay w =
  Ok tt (mkWorld (Some i)
           (Some (mkElement (fresh w) (geometry (layout w) i ∪ (overlayStyles w ∪ ∅))))
           (modules w) (moduleClasses w) (overlayStyles w)
           (filter (fun x => x ≠ el_id o) (children w) ++ [fresh w])
           (add_listener keyupL
              (remove_listener (mkListener "keyup" CbCheckImage false) (docListeners w)))
           (add_listener inputL
              (remove_listener (mkListener "input" CbCheckImage false) (rootListeners w)))
           (layout w) (S (fresh w))
           (trace w ++ overlayRemoval (el_id o)
              ++ overlayCreation (layout w) i (fresh w))).
Proof.
  intros Ho Hin Hi.
  destruct w as [i0 ov ms cs st ch dl rl pg fr tr]; cbn in Ho, Hin, Hi; subst.
  exec. rewrite decide_True by done. exec.
  unfold geometry, overlayCreation, overlayRemoval.
  by rewrite <- !app_assoc.
Qed.

Lemma result_cases (r : Result unit) :
  r = Ok tt (state_of r) \/ exists e, r = Throw e (state_of r).
Proof. destruct r as [[] w|e w]; cbn; eauto. Qed.

Lemma show_unfold t w :
  show t w =
  match showOverlay (set_img (Some t) (set_trace (trace w ++ [EvSetImg (Some t)]) w)) with
  | Ok _ w1 => initializeModules w1
  | Throw e w1 => Throw e w1
  end.
Proof. reflexivity. Qed.

Lemma show_shape t w :
  overlay w = None -> modules w = [] ->
  exists st ms n evs,
    forallb is_setup evs = true /\
    let W := mkWorld (Some t) (Some (mkElement (fresh w) st)) ms
               (moduleClasses w) (overlayStyles w) (children w ++ [fresh w])
               (add_listener keyupL (docListeners w))
               (add_listener inputL (rootListeners w)) (layout w) n
               (trace w ++ EvSetImg (Some t)
                  :: overlayCreation (layout w) t (fresh w) ++ evs) in
    show t w = Ok tt W \/ exists e, show t w = Throw e W.
Proof.
  intros Ho Hm.
  destruct w as [i0 ov0 ms0 cs st0 ch dl rl pg fr tr]; cbn in Ho, Hm; subst.
  rewrite show_unfold.
  rewrite (showOverlay_fresh _ t) by done.
  wsimpl.
  match goal with |- context [initializeModules ?w1] => set (W1 := w1) end.
  destruct (initializeModules_shape W1) as (ov & ms & n & evs & Hst & Hall & Hid).
  subst W1. wsimpl in Hst. wsimpl in Hid.
  destruct ov as [[oid ost]|]; [|done]. cbn in Hid. injection Hid as ->.
  exists ost, ms, n, evs. split; [done|]. cbn zeta.
  match goal with |- context [initializeModules ?w1] =>
    destruct (result_cases (initializeModules w1)) as [H|[e H]]; rewrite H, Hst end;
    [left|right; exists e]; f_equal;
    f_equal; rewrite <- !app_assoc; reflexivity.
Qed.

(** ** The invariant of the reachable worlds *)

Lemma Inv_constructor d o pg : Inv (constructor d o pg).
Proof. exists false. repeat split. Qed.

Lemma hide_Inv_eq w : Inv w -> hide w = Ok tt (afterHide w).
Proof.
  intros (armed & Hd & Hr & H). unfold afterHide, teardown.
  destruct (img w) as [a|] eqn:Hi.
  - destruct H as (_ & _ & o & Ho & Hin).
    rewrite (hide_eq w o Ho Hin), Ho, Hd, Hr, remove_keyup, remove_input.
    reflexivity.
  - destruct H as (Ho & Hm). rewrite (hide_idle w Ho Hm), Ho, Hm.
    destruct w; cbn in *; subst. reflexivity.
Qed.

Lemma Inv_afterHide w : Inv w -> Inv (afterHide w).
Proof. intros (armed & Hd & Hr & _). exists armed. by repeat split. Qed.

(** Selecting [t] from a world where nothing is selected. *)
Lemma show_Inv t w :
  Inv w -> img w = None -> is_img t = true ->
  exists st ms n evs,
    forallb is_setup evs = true /\
    let W := mkWorld (Some t) (Some (mkElement (fresh w) st)) ms
               (moduleClasses w) (overlayStyles w) (children w ++ [fresh w])
               (docWired true) (rootWired true) (layout w) n
               (trace w ++ EvSetImg (Some t)
                  :: overlayCreation (layout w) t (fresh w) ++ evs) in
    (show t w = Ok tt W \/ exists e, show t w = Throw e W) /\ Inv W.
Proof.
  intros (armed & Hd & Hr & H) Hi Ht. rewrite Hi in H. destruct H as (Ho & Hm).
  destruct (show_shape t w Ho Hm) as (st & ms & n & evs & Hall & Hshow).
  exists st, ms, n, evs. split; [done|]. cbn zeta in *.
  rewrite Hd, Hr, add_keyup, add_input in Hshow. split; [exact Hshow|].
  exists true. cbn. repeat split; try done.
  eexists; split; [reflexivity|]. cbn. apply elem_of_app; right. by apply list_elem_of_singleton.
Qed.

(** ** [handleClick] and [checkImage], case by case *)

Lemma handleClick_same evt t w :
  target evt = Some t -> is_img t = true -> img w = Some t ->
  handleClick evt w = Ok tt w.
Proof.
  intros Ht Himg Hi. unfold handleClick.
  unfold mbind at 1, M_bind at 1, gets at 1. rewrite Ht, Himg, Hi.
  by rewrite decide_True.
Qed.

Lemma handleClick_away evt w :
  Inv w ->
  match target evt with Some t => is_img t = false | None => True end ->
  handleClick evt w = Ok tt (if defined (img w) then afterHide w else w).
Proof.
  intros HI Ht. unfold handleClick.
  unfold mbind at 1, M_bind at 1, gets at 1.
  destruct (target evt) as [t|]; [rewrite Ht|];
    destruct (img w); cbn [defined when]; by rewrite ?hide_Inv_eq.
Qed.

Lemma handleClick_other evt t w :
  target evt = Some t -> is_img t = true -> img w ≠ Some t ->
  handleClick evt w =
  match (if defined (img w) then hide w else Ok tt w) with
  | Ok _ w1 =>
      match show t w1 with
      | Ok _ w2 => Ok tt (set_trace (trace w2 ++ [EvPreventDefault]) w2)
      | Throw e w2 => Throw e w2
      end
  | Throw e w1 => Throw e w1
  end.
Proof.
  intros Ht Himg Hi. unfold handleClick.
  unfold mbind at 1, M_bind at 1, gets at 1. rewrite Ht, Himg.
  rewrite decide_False by done.
  unfold mbind at 1, M_bind at 1. unfold when.
  destruct (img w); cbn [defined]; reflexivity.
Qed.

Lemma Inv_cleared w : Inv w -> Inv (cleared w) /\ img (cleared w) = None.
Proof.
  intros HI. unfold cleared. destruct (img w) eqn:Hi; cbn [defined].
  - split; [by apply Inv_afterHide|done].
  - done.
Qed.

Lemma cleared_frame w :
  fresh (cleared w) = fresh w /\ layout (cleared w) = layout w
  /\ moduleClasses (cleared w) = moduleClasses w
  /\ overlayStyles (cleared w) = overlayStyles w.
Proof. unfold cleared. by destruct (defined (img w)). Qed.

Lemma Inv_set_trace v w : Inv w -> Inv (set_trace v w).
Proof. intros (armed & H). by exists armed. Qed.

Lemma handleClick_select evt t w :
  Inv w -> target evt = Some t -> is_img t = true -> img w ≠ Some t ->
  exists st ms n evs,
    forallb is_setup evs = true /\
    let w1 := cleared w in
    let W := mkWorld (Some t) (Some (mkElement (fresh w) st)) ms
               (moduleClasses w) (overlayStyles w) (children w1 ++ [fresh w])
               (docWired true) (rootWired true) (layout w) n
               (trace w1 ++ EvSetImg (Some t)
                  :: overlayCreation (layout w) t (fresh w) ++ evs) in
    state_of (handleClick evt w) = W /\ Inv W.
Proof.
  intros HI Ht Himg Hi. rewrite (handleClick_other evt t w Ht Himg Hi).
  destruct (Inv_cleared w HI) as (HI1 & Hi1).
  assert ((if defined (img w) then hide w else Ok tt w) = Ok tt (cleared w)) as ->.
  { unfold cleared. destruct (img w); cbn [defined]; by rewrite ?hide_Inv_eq. }
  destruct (show_Inv t (cleared w) HI1 Hi1 Himg)
    as (st & ms & n & evs & Hall & Hshow & HW); cbn zeta in *.
  destruct (cleared_frame w) as (Hf & Hl & Hc & Hs). rewrite Hf, Hl, Hc, Hs in *.
  destruct Hshow as [Hok|[e Hthrow]].
  - exists st, ms, n, (evs ++ [EvPreventDefault]). split.
    { by rewrite forallb_app, Hall. }
    rewrite Hok. split.
    + cbn. unfold set_trace; cbn. f_equal. by rewrite <- app_assoc.
    + destruct HW as (armed & H). by exists armed.
  - exists st, ms, n, evs. split; [done|]. by rewrite Hthrow.
Qed.

Lemma handleClick_Inv evt w : Inv w -> Inv (state_of (handleClick evt w)).
Proof.
  intros HI.
  destruct (target evt) as [t|] eqn:Ht.
  - destruct (is_img t) eqn:Himg.
    + destruct (decide (img w = Some t)) as [Hi|Hi].
      * by rewrite (handleClick_same evt t w).
      * destruct (handleClick_select evt t w HI Ht Himg Hi)
          as (st & ms & n & evs & _ & Hst & HW). cbn zeta in *. by rewrite Hst.
    + rewrite handleClick_away by (rewrite ?Ht; done). cbn.
      destruct (defined (img w)); [by apply Inv_afterHide|done].
  - rewrite handleClick_away by (rewrite ?Ht; done). cbn.
    destruct (defined (img w)); [by apply Inv_afterHide|done].
Qed.

Lemma checkImage_eq evt w :
  Inv w ->
  checkImage evt w =
  match img w with
  | Some a =>
      Ok tt (afterHide
               (if is_delete_key evt
                then set_trace (trace w ++ [EvDeleteAt a 0]) w else w))
  | None => Ok tt w
  end.
Proof.
  intros HI. unfold checkImage. unfold mbind at 1, M_bind at 1, gets at 1.
  destruct (img w) as [a|] eqn:Hi; [|done].
  unfold mbind at 1, M_bind at 1. unfold when.
  destruct (is_delete_key evt).
  - unfold log, modify. apply hide_Inv_eq. by apply Inv_set_trace.
  - unfold mret, M_ret. by apply hide_Inv_eq.
Qed.

Lemma checkImage_Inv evt w : Inv w -> Inv (state_of (checkImage evt w)).
Proof.
  intros HI. rewrite checkImage_eq by done. destruct (img w); [|done].
  cbn. apply Inv_afterHide. destruct (is_delete_key evt); [|done].
  by apply Inv_set_trace.
Qed.

Lemma repositionElements_Inv w : Inv w -> Inv (state_of (repositionElements w)).
Proof.
  intros (armed & Hd & Hr & H). rewrite repositionElements_eq.
  destruct (overlay w) as [o|] eqn:Ho, (img w) as [a|] eqn:Hi; cbn;
    try (exists armed; rewrite ?Ho, ?Hi; done).
  exists armed. destruct w; cbn in *; subst. repeat split; try done; try apply H.
  destruct H as (_ & _ & o' & [= <-] & Hin). eauto.
Qed.

(** ** Dispatch, and the invariant along a run *)

Lemma dispatch_one t type evt w l :
  filter (fun l => l_type l = type) (listeners t w) = [l] ->
  dispatch t type evt w = Ok tt (state_of (invoke (l_callback l) evt w)).
Proof.
  intros H. unfold dispatch. unfold mbind at 1, M_bind at 1, gets at 1.
  rewrite H. reflexivity.
Qed.

Lemma dispatch_none t type evt w :
  filter (fun l => l_type l = type) (listeners t w) = [] ->
  dispatch t type evt w = Ok tt w.
Proof.
  intros H. unfold dispatch. unfold mbind at 1, M_bind at 1, gets at 1.
  rewrite H. reflexivity.
Qed.

Lemma step_Click evt w : Inv w -> step (Click evt) w = state_of (handleClick evt w).
Proof.
  intros (armed & _ & Hr & _). unfold step, handle.
  rewrite (dispatch_one _ _ _ _ (mkListener "click" CbHandleClick false)); [done|].
  cbn [listeners]. rewrite Hr. by destruct armed.
Qed.

Lemma step_MsControlSelect evt w :
  Inv w -> step (MsControlSelect evt) w = state_of (handleClick evt w).
Proof.
  intros (armed & _ & Hr & _). unfold step, handle.
  rewrite (dispatch_one _ _ _ _ (mkListener "mscontrolselect" CbHandleClick false));
    [done|].
  cbn [listeners]. rewrite Hr. by destruct armed.
Qed.

Lemma step_Scroll evt w : Inv w -> step (Scroll evt) w = afterHide w.
Proof.
  intros HI. pose proof HI as (armed & _ & Hr & _). unfold step, handle.
  rewrite (dispatch_one _ _ _ _ (mkListener "scroll" CbHandleScroll false)).
  - cbn [invoke l_callback state_of]. unfold handleScroll. by rewrite hide_Inv_eq.
  - cbn [listeners]. rewrite Hr. by destruct armed.
Qed.

Lemma step_KeyUp evt w : Inv w -> step (KeyUp evt) w = state_of (checkImage evt w).
Proof.
  intros HI. pose proof HI as (armed & Hd & _ & H). unfold step, handle.
  destruct armed.
  - rewrite (dispatch_one _ _ _ _ keyupL); [done|]. cbn [listeners]. by rewrite Hd.
  - rewrite dispatch_none by (cbn [listeners]; by rewrite Hd).
    rewrite checkImage_eq by done. destruct (img w); [|done]. by destruct H.
Qed.

Lemma step_Input evt w : Inv w -> step (Input evt) w = state_of (checkImage evt w).
Proof.
  intros HI. pose proof HI as (armed & _ & Hr & H). unfold step, handle.
  destruct armed.
  - rewrite (dispatch_one _ _ _ _ inputL); [done|]. cbn [listeners]. by rewrite Hr.
  - rewrite dispatch_none by (cbn [listeners]; by rewrite Hr).
    rewrite checkImage_eq by done. destruct (img w); [|done]. by destruct H.
Qed.

Lemma step_TextChange w : step TextChange w = state_of (repositionElements w).
Proof. reflexivity. Qed.

Create HintDb inv.
#[local] Hint Resolve handleClick_Inv checkImage_Inv repositionElements_Inv
  Inv_afterHide : inv.

Lemma step_Inv s w : Inv w -> Inv (step s w).
Proof.
  intros HI. destruct s as [evt|evt|evt|evt|evt| |pg].
  - rewrite step_Click by done. auto with inv.
  - rewrite step_MsControlSelect by done. auto with inv.
  - rewrite step_Scroll by done. auto with inv.
  - rewrite step_KeyUp by done. auto with inv.
  - rewrite step_Input by done. auto with inv.
  - rewrite step_TextChange. auto with inv.
  - destruct HI as (armed & H). by exists armed.
Qed.

Lemma run_Inv ss : forall w, Inv w -> Inv (run ss w).
Proof.
  induction ss as [|s ss IH]; intros w HI; [done|].
  cbn. apply IH. by apply step_Inv.
Qed.

Lemma reached_Inv d o pg ss : Inv (run ss (constructor d o pg)).
Proof. apply run_Inv, Inv_constructor. Qed.

(** ** Teardown *)

Lemma is_delete_key_spec evt :
  is_delete_key evt = true <-> keyCode evt = Some 46 \/ keyCode evt = Some 8.
Proof.
  unfold is_delete_key. destruct (keyCode evt) as [k|].
  - rewrite orb_true_iff, !Z.eqb_eq.
    split; [intros [-> | ->]; auto | intros [[= ->] | [= ->]]; auto].
  - split; [done | intros [?|?]; done].
Qed.

(** [hideOverlay] asks for the removal of listeners that are not there:
    the listeners of the first selection stay for ever. *)
Lemma hide_keeps_listeners w :
  Inv w -> defined (img w) = true ->
  docListeners (state_of (hide w)) = [keyupL] /\
  rootListeners (state_of (hide w)) = baseListeners ++ [inputL].
Proof.
  intros HI Hi. rewrite hide_Inv_eq by done. cbn.
  destruct HI as (armed & Hd & Hr & H). destruct (img w); [|done].
  destruct H as (-> & _). by rewrite Hd, Hr.
Qed.




(** ** Activation *)

Lemma step_activation t s w :
  Inv w -> targets t s ->
  exists evt, target evt = Some t /\ step s w = state_of (handleClick evt w).
Proof.
  intros HI (evt & Hs & Ht). exists evt. split; [done|].
  destruct Hs as [-> | ->]; by rewrite ?step_Click, ?step_MsControlSelect.
Qed.






Lemma instances_classes cs : forall n, map inst_of (instances cs n) = cs.
Proof. induction cs as [|c cs IH]; intros n; [done|]. cbn. by rewrite IH. Qed.

(** * The claims *)








(** C4, evaluated on one select/deselect cycle: after an image is clicked
    and then a paragraph, nothing is selected, yet the keyup listener is
    still in the listener list of the document and the input listener in
    that of the editor root. The removals ask for capture [false], the
    registrations were made with capture [true]. *)
Theorem listeners_survive_deselect :
  let w := run [Sample.click Sample.imgA; Sample.click Sample.para] Sample.w0 in
  img w = None /\ overlay w = None /\
  docListeners w = [keyupL] /\
  rootListeners w = baseListeners ++ [inputL].
Proof. vm_compute. done. Qed.

(** C5, as the specification words it, fails: with one image selected and
    its overlay in place, [showOverlay] is not a no-op (it allocates a new
    object). *)
Lemma showOverlay_counterexample :
  ~ create_is_noop_on_existing Sample.w1.
Proof.
  intros H. specialize (H eq_refl).
  apply (f_equal (fun r => fresh (state_of r))) in H.
  vm_compute in H. discriminate H.
Qed.

(** C5, amended: with an image recorded, [showOverlay] returns; when an
    overlay exists (attached to the container) it is first removed as
    [hideOverlay] does, and then, as when no overlay exists, the host
    selection is set, the two listeners are registered, a new element is
    allocated, styled with the configured styles, attached to the parent of
    the editing container, and the geometry is computed and assigned. *)
Theorem showOverlay_replaces w i :
  img w = Some i ->
  (forall o, overlay w = Some o -> el_id o ∈ children w) ->
  hideOverlay w = Ok tt (withoutOverlay w) /\
  showOverlay w = Ok tt (withNewOverlay i (withoutOverlay w)).
Proof.
  intros Hi Hch. unfold withoutOverlay, withNewOverlay.
  destruct (overlay w) as [o|] eqn:Ho.
  - specialize (Hch o eq_refl).
    rewrite (hideOverlay_eq w o Ho Hch), (showOverlay_replace w o i Ho Hch Hi).
    cbn [moduleClasses overlayStyles children docListeners rootListeners
         layout fresh trace modules].
    by rewrite <- app_assoc.
  - by rewrite (hideOverlay_none w Ho), (showOverlay_fresh w i Ho Hi).
Qed.

Lemma showOverlay_replaces_witness :
  img Sample.w1 = Some Sample.imgA /\
  hideOverlay Sample.w1 = Ok tt (withoutOverlay Sample.w1) /\
  showOverlay Sample.w1 =
    Ok tt (withNewOverlay Sample.imgA (withoutOverlay Sample.w1)).
Proof.
  split; [reflexivity|].
  apply (showOverlay_replaces Sample.w1 Sample.imgA).
  - reflexivity.
  - intros o Ho. vm_compute in Ho. injection Ho as <-.
    vm_compute. apply list_elem_of_further, list_elem_of_here.
Defined.







(** C9: for a module list whose entries all resolve to classes, the hooks
    fire in list order throughout. [initializeModules] calls [onDestroy] on
    the instances that were live, constructs one instance per entry in list
    order, calls [onCreate] on each in that order, repositions, and calls
    [onUpdate] on each in that order; [onUpdate] repositions and calls
    [onUpdate] on each live instance in order; [removeModules] calls
    [onDestroy] on each live instance in order and empties the list. *)
Theorem module_hooks_in_list_order w cs :
  mapM resolve (moduleClasses w) = Some cs ->
  let ms := instances cs (fresh w) in
  map inst_of ms = cs /\
  (exists w',
     initializeModules w = Ok tt w' /\ modules w' = ms /\
     trace w' =
       trace w ++ map (EvHook OnDestroy) (modules w)
         ++ map EvNew ms ++ map (EvHook OnCreate) ms
         ++ repositionCalls w ++ map (EvHook OnUpdate) ms) /\
  (exists w',
     onUpdate w = Ok tt w' /\ modules w' = modules w /\
     trace w' = trace w ++ repositionCalls w ++ map (EvHook OnUpdate) (modules w)) /\
  (exists w',
     removeModules w = Ok tt w' /\ modules w' = [] /\
     trace w' = trace w ++ map (EvHook OnDestroy) (modules w)).
Proof.
  intros H ms. split; [apply instances_classes|]. split; [|split].
  - eexists. split; [by apply initializeModules_ok|]. done.
  - eexists. split; [apply onUpdate_eq|]. done.
  - eexists. split; [apply removeModules_eq|]. done.
Qed.

(** On the sample page with modules [A; B] = [DisplaySize; Resize] and one
    image selected: re-initialisation destroys A then B, constructs A then
    B, creates A then B, updates A then B. *)
Lemma module_hooks_in_list_order_witness :
  let A := mkInstance DisplaySize 2 in
  let B := mkInstance Resize 3 in
  let A' := mkInstance DisplaySize 4 in
  let B' := mkInstance Resize 5 in
  mapM resolve (moduleClasses Sample.w1) = Some [DisplaySize; Resize] /\
  (exists w',
     initializeModules Sample.w1 = Ok tt w' /\ modules w' = [A'; B'] /\
     trace w' =
       trace Sample.w1 ++ [EvHook OnDestroy A; EvHook OnDestroy B]
         ++ [EvNew A'; EvNew B'] ++ [EvHook OnCreate A'; EvHook OnCreate B']
         ++ [EvAssignStyle 1] ++ [EvHook OnUpdate A'; EvHook OnUpdate B']) /\
  (exists w',
     onUpdate Sample.w1 = Ok tt w' /\ modules w' = [A; B] /\
     trace w' =
       trace Sample.w1 ++ [EvAssignStyle 1] ++ [EvHook OnUpdate A; EvHook OnUpdate B]) /\
  (exists w',
     removeModules Sample.w1 = Ok tt w' /\ modules w' = [] /\
     trace w' = trace Sample.w1 ++ [EvHook OnDestroy A; EvHook OnDestroy B]).
Proof.
  intros A B A' B'. split; [reflexivity|].
  apply (module_hooks_in_list_order Sample.w1 [DisplaySize; Resize]).
  reflexivity.
Defined.


(** * Further properties *)

(** ** What no method writes *)

Lemma frame_refl w : frame w w.
Proof. by repeat split. Qed.

Lemma frame_trans w1 w2 w3 : frame w1 w2 -> frame w2 w3 -> frame w1 w3.
Proof.
  intros (A1 & A2 & A3 & A4) (B1 & B2 & B3 & B4).
  repeat split; [congruence..|lia].
Qed.

Lemma keeps_ret {A} (a : A) : keeps (mret a).
Proof. intros w. apply frame_refl. Qed.

Lemma keeps_bind {A B} (m : M A) (f : A -> M B) :
  keeps m -> (forall a, keeps (f a)) -> keeps (m ≫= f).
Proof.
  intros Hm Hf w. specialize (Hm w). unfold mbind, M_bind.
  destruct (m w) as [a w1|e w1]; cbn [state_of] in *.
  - apply (frame_trans _ w1); [done|apply Hf].
  - done.
Qed.

Lemma keeps_gets {A} (f : World -> A) : keeps (gets f).
Proof. intros w. apply frame_refl. Qed.

Lemma keeps_throw {A} e : keeps (@throw A e).
Proof. intros w. apply frame_refl. Qed.

Lemma keeps_modify f : (forall w, frame w (f w)) -> keeps (modify f).
Proof. intros H w. apply H. Qed.

Lemma keeps_log e : keeps (log e).
Proof. apply keeps_modify. intros w. by repeat split. Qed.

Lemma keeps_when c m : keeps m -> keeps (when c m).
Proof. intros H. destruct c; [done|]. apply keeps_ret. Qed.

Lemma keeps_guarded m : keeps m -> keeps (guarded m).
Proof. intros H w. apply H. Qed.

Lemma keeps_forEach {A} (l : list A) f :
  (forall x, keeps (f x)) -> keeps (forEach l f).
Proof.
  intros H. induction l as [|x l IH]; cbn; [apply keeps_ret|].
  apply keeps_bind; [apply H|done].
Qed.

Lemma keeps_mapM {A B} (f : A -> M B) l :
  (forall x, keeps (f x)) -> keeps (mapM f l).
Proof.
  intros H. induction l as [|x l IH]; cbn; [apply keeps_ret|].
  apply keeps_bind; [apply H|]. intros y.
  apply keeps_bind; [apply IH|]. intros ys. apply keeps_ret.
Qed.

Ltac keeps_step :=
  lazymatch goal with
  | |- keeps (mret _) => apply keeps_ret
  | |- keeps (gets _) => apply keeps_gets
  | |- keeps (throw _) => apply keeps_throw
  | |- keeps (log _) => apply keeps_log
  | |- keeps (_ ≫= _) => apply keeps_bind; [|intros ?]
  | |- keeps (when _ _) => apply keeps_when
  | |- keeps (guarded _) => apply keeps_guarded
  | |- keeps (forEach _ _) => apply keeps_forEach; intros ?
  | |- keeps (mapM _ _) => apply keeps_mapM; intros ?
  | |- keeps (modify _) => apply keeps_modify; intros ?; by repeat split
  | |- keeps (match ?x with _ => _ end) => destruct x
  end.

Lemma keeps_callHook h m : keeps (callHook h m).
Proof. apply keeps_log. Qed.

Lemma keeps_removeModules : keeps removeModules.
Proof. unfold removeModules. repeat keeps_step. apply keeps_callHook. Qed.

Lemma keeps_assignStyle props : keeps (assignStyle props).
Proof. unfold assignStyle. repeat keeps_step. Qed.

Lemma keeps_repositionElements : keeps repositionElements.
Proof. unfold repositionElements. repeat keeps_step. apply keeps_assignStyle. Qed.

Lemma keeps_onUpdate : keeps onUpdate.
Proof.
  unfold onUpdate. repeat keeps_step;
    [apply keeps_repositionElements|apply keeps_callHook].
Qed.

Lemma keeps_construct mc : keeps (construct mc).
Proof.
  intros w. unfold construct. destruct (resolve mc); [|apply frame_refl].
  destruct w. unfold frame. exec. repeat split. lia.
Qed.

Lemma keeps_createElement : keeps createElement.
Proof. intros w. destruct w. unfold frame, createElement. exec. repeat split. lia. Qed.

Lemma keeps_initializeModules : keeps initializeModules.
Proof.
  unfold initializeModules. repeat keeps_step;
    [apply keeps_removeModules|apply keeps_construct|apply keeps_callHook
    |apply keeps_onUpdate].
Qed.

Lemma keeps_removeEventListener t ty cb c : keeps (removeEventListener t ty cb c).
Proof.
  unfold removeEventListener. repeat keeps_step.
  apply keeps_modify. intros w. by destruct t.
Qed.

Lemma keeps_addEventListener t ty cb c : keeps (addEventListener t ty cb c).
Proof.
  unfold addEventListener. repeat keeps_step.
  apply keeps_modify. intros w. by destruct t.
Qed.

Lemma keeps_hideOverlay : keeps hideOverlay.
Proof.
  unfold hideOverlay, removeChild. repeat keeps_step;
    apply keeps_removeEventListener.
Qed.

Lemma keeps_showOverlay : keeps showOverlay.
Proof.
  unfold showOverlay, appendChild. repeat keeps_step;
    first [apply keeps_hideOverlay | apply keeps_addEventListener
          | apply keeps_createElement | apply keeps_assignStyle
          | apply keeps_repositionElements].
Qed.

Lemma keeps_hide : keeps hide.
Proof.
  unfold hide. repeat keeps_step; [apply keeps_hideOverlay|apply keeps_removeModules].
Qed.

Lemma keeps_show i : keeps (show i).
Proof.
  unfold show. repeat keeps_step; [apply keeps_showOverlay|apply keeps_initializeModules].
Qed.

Lemma keeps_handleClick evt : keeps (handleClick evt).
Proof.
  unfold handleClick. repeat keeps_step; try apply keeps_hide; apply keeps_show.
Qed.

Lemma keeps_checkImage evt : keeps (checkImage evt).
Proof. unfold checkImage. repeat keeps_step. apply keeps_hide. Qed.

Lemma keeps_dispatch t ty evt : keeps (dispatch t ty evt).
Proof.
  unfold dispatch. repeat keeps_step. unfold invoke.
  destruct (l_callback _);
    [apply keeps_handleClick|apply keeps_hide|apply keeps_checkImage].
Qed.

Lemma keeps_handle s :
  match s with Relayout _ => True | _ => keeps (handle s) end.
Proof.
  destruct s; try done; cbn [handle]; try apply keeps_dispatch.
  apply keeps_guarded, keeps_repositionElements.
Qed.

Lemma step_config s w :
  moduleClasses (step s w) = moduleClasses w /\
  overlayStyles (step s w) = overlayStyles w /\
  (fresh w <= fresh (step s w))%nat /\
  layout (step s w) = match s with Relayout pg => pg | _ => layout w end.
Proof.
  pose proof (keeps_handle s) as H. unfold step.
  destruct s; try (destruct (H w) as (H1 & H2 & H3 & H4); done).
  by repeat split.
Qed.

(** ** Along a run *)

Lemma run_cons s ss w : run (s :: ss) w = run ss (step s w).
Proof. reflexivity. Qed.

Lemma run_app ss1 ss2 w : run (ss1 ++ ss2) w = run ss2 (run ss1 w).
Proof. apply foldl_app. Qed.

Lemma run_config ss : forall w,
  moduleClasses (run ss w) = moduleClasses w /\
  overlayStyles (run ss w) = overlayStyles w /\
  (fresh w <= fresh (run ss w))%nat /\
  layout (run ss w) = lastLayout ss (layout w).
Proof.
  induction ss as [|s ss IH]; intros w; [by repeat split|].
  rewrite run_cons. destruct (step_config s w) as (H1 & H2 & H3 & H4).
  destruct (IH (step s w)) as (I1 & I2 & I3 & I4).
  rewrite I1, I2, I4, H1, H2, H4.
  split; [done|]. split; [done|]. split; [lia|]. by destruct s.
Qed.

(** ** The children of the container *)

Lemma filter_overlay_child (e : nat) :
  e ≠ 0%nat -> filter (fun x => x ≠ e) [0%nat; e] = [0%nat].
Proof.
  intros He. rewrite filter_cons_True by congruence.
  rewrite filter_cons_False by (intros H; by apply H). done.
Qed.

Lemma Tidy_afterHide w : Tidy w -> Tidy (afterHide w).
Proof.
  intros (Hf & Hc & Ho). unfold Tidy, afterHide, containerChildren in *. cbn.
  split; [done|]. split; [|done].
  destruct (overlay w) as [o|]; [|done].
  rewrite Hc. apply filter_overlay_child. by apply Ho.
Qed.

Lemma Tidy_set_trace v w : Tidy w -> Tidy (set_trace v w).
Proof. done. Qed.

Lemma Tidy_cleared w : Tidy w -> Tidy (cleared w).
Proof. intros H. unfold cleared. destruct (defined (img w)); [by apply Tidy_afterHide|done]. Qed.

Lemma Tidy_handleClick evt w :
  Inv w -> Tidy w -> Tidy (state_of (handleClick evt w)).
Proof.
  intros HI HT.
  destruct (target evt) as [t|] eqn:Ht.
  - destruct (is_img t) eqn:Himg.
    + destruct (decide (img w = Some t)) as [Hi|Hi].
      * by rewrite (handleClick_same evt t w).
      * pose proof (keeps_handleClick evt w) as (_ & _ & _ & Hfr).
        destruct (handleClick_select evt t w HI Ht Himg Hi)
          as (st & ms & n & evs & _ & Hst & _). cbn zeta in Hst.
        rewrite Hst in *. cbn in Hfr.
        destruct (Tidy_cleared w HT) as (_ & Hc & _).
        destruct (Inv_cleared w HI) as ((armed & _ & _ & Hcl) & Hi0).
        rewrite Hi0 in Hcl. destruct Hcl as (Ho0 & _).
        destruct HT as (Hf & _ & _).
        unfold Tidy, containerChildren in *. cbn. rewrite Hc, Ho0.
        split; [lia|]. split; [done|]. intros o' [= <-]. cbn. lia.
    + rewrite handleClick_away by (rewrite ?Ht; done). by apply Tidy_cleared.
  - rewrite handleClick_away by (rewrite ?Ht; done). by apply Tidy_cleared.
Qed.

Lemma Tidy_checkImage evt w :
  Inv w -> Tidy w -> Tidy (state_of (checkImage evt w)).
Proof.
  intros HI HT. rewrite checkImage_eq by done. destruct (img w); [|done].
  cbn. apply Tidy_afterHide. by destruct (is_delete_key evt).
Qed.

Lemma Tidy_repositionElements w : Tidy w -> Tidy (state_of (repositionElements w)).
Proof.
  intros HT. rewrite repositionElements_eq.
  destruct (overlay w) as [o|] eqn:Hov, (img w) as [a|] eqn:Hi; cbn [state_of];
    try exact HT.
  destruct HT as (Hf & Hc & Ho).
  unfold Tidy, containerChildren in *. rewrite Hov in *. cbn.
  split; [done|]. split; [done|]. intros o' [= <-]. cbn. by apply Ho.
Qed.

Lemma Tidy_step s w : Inv w -> Tidy w -> Tidy (step s w).
Proof.
  intros HI HT. destruct s as [evt|evt|evt|evt|evt| |pg].
  - rewrite step_Click by done. by apply Tidy_handleClick.
  - rewrite step_MsControlSelect by done. by apply Tidy_handleClick.
  - rewrite step_Scroll by done. by apply Tidy_afterHide.
  - rewrite step_KeyUp by done. by apply Tidy_checkImage.
  - rewrite step_Input by done. by apply Tidy_checkImage.
  - rewrite step_TextChange. by apply Tidy_repositionElements.
  - done.
Qed.

Lemma Tidy_run ss : forall w, Inv w -> Tidy w -> Tidy (run ss w).
Proof.
  induction ss as [|s ss IH]; intros w HI HT; [done|].
  cbn. apply IH; [by apply step_Inv|by apply Tidy_step].
Qed.

Lemma Tidy_constructor d o pg : Tidy (constructor d o pg).
Proof. split; [done|]. split; [done|]. intros o' H. discriminate H. Qed.


Lemma reached_Tidy d o pg ss : Tidy (run ss (constructor d o pg)).
Proof. apply Tidy_run; [apply Inv_constructor|apply Tidy_constructor]. Qed.

(** X2: in every reachable world the children of the container are the
    editor root and, when there is one, the current overlay, without
    repetition: overlays of earlier selections are never left behind. *)
Theorem reachable_container_children d o pg ss :
  let w := run ss (constructor d o pg) in
  children w = 0%nat :: match overlay w with Some ov => [el_id ov] | None => [] end /\
  NoDup (children w).
Proof.
  intros w. destruct (reached_Tidy d o pg ss) as (_ & Hc & Ho). fold w in Hc, Ho.
  split; [exact Hc|]. rewrite Hc. unfold containerChildren.
  destruct (overlay w) as [ov|].
  - apply NoDup_cons. split; [|apply NoDup_singleton].
    intros H. apply list_elem_of_singleton in H. by apply (Ho ov).
  - apply NoDup_singleton.
Qed.

(** ** The listeners along a run *)

Lemma docWired_inj a b : docWired a = docWired b -> a = b.
Proof. by destruct a, b. Qed.

Lemma step_docListeners s w :
  Inv w -> docListeners w = docWired true -> docListeners (step s w) = docWired true.
Proof.
  intros HI Hd.
  assert (docListeners (afterHide w) = docWired true) as Hah by done.
  assert (forall evt, docListeners (state_of (handleClick evt w)) = docWired true) as Hhc.
  { intros evt. destruct (target evt) as [t|] eqn:Ht.
    - destruct (is_img t) eqn:Himg.
      + destruct (decide (img w = Some t)) as [Hi|Hi].
        * by rewrite (handleClick_same evt t w).
        * destruct (handleClick_select evt t w HI Ht Himg Hi)
            as (st & ms & n & evs & _ & Hst & _). cbn zeta in Hst. by rewrite Hst.
      + rewrite handleClick_away by (rewrite ?Ht; done). cbn.
        by destruct (defined (img w)).
    - rewrite handleClick_away by (rewrite ?Ht; done). cbn.
      by destruct (defined (img w)). }
  assert (forall evt, docListeners (state_of (checkImage evt w)) = docWired true) as Hci.
  { intros evt. rewrite checkImage_eq by done. destruct (img w); [|done].
    cbn. by destruct (is_delete_key evt). }
  destruct s as [evt|evt|evt|evt|evt| |pg];
    rewrite ?step_Click, ?step_MsControlSelect, ?step_Scroll, ?step_KeyUp,
      ?step_Input, ?step_TextChange by done; try done.
  rewrite repositionElements_eq. by destruct (overlay w), (img w).
Qed.

Lemma run_docListeners ss : forall w,
  Inv w -> docListeners w = docWired true -> docListeners (run ss w) = docWired true.
Proof.
  induction ss as [|s ss IH]; intros w HI Hd; [done|].
  rewrite run_cons. apply IH; [by apply step_Inv|by apply step_docListeners].
Qed.

(** X3: in every reachable world the document has no listener or the one
    keyup listener, and the editor root has the three listeners of the
    constructor and at most the one input listener; both are there while an
    image is selected, and once registered they stay registered whatever
    signals follow. *)
Theorem listeners_never_accumulate d o pg ss ss' :
  let w := run ss (constructor d o pg) in
  let w' := run ss' w in
  exists armed armed',
    docListeners w = docWired armed /\ rootListeners w = rootWired armed /\
    docListeners w' = docWired armed' /\ rootListeners w' = rootWired armed' /\
    implb (defined (img w)) armed = true /\
    implb armed armed' = true.
Proof.
  intros w w'.
  pose proof (reached_Inv d o pg ss) as HI. fold w in HI.
  pose proof (run_Inv ss' w HI) as HI'. fold w' in HI'.
  destruct HI as (armed & Hd & Hr & H). destruct HI' as (armed' & Hd' & Hr' & _).
  exists armed, armed'. repeat split; try done.
  - destruct (img w); [|done]. by destruct H as (-> & _).
  - destruct armed; [|done]. cbn.
    assert (Inv w) as HI by (exists true; done).
    pose proof (run_docListeners ss' w HI Hd) as Hd''. fold w' in Hd''.
    rewrite Hd' in Hd''. by apply docWired_inj in Hd''.
Qed.

(** X4: no signal changes the module class list or the overlay styles; the
    layout is only what the page last made it; identities are never given
    back. This holds from any world, also through handlers that throw. *)
Theorem configuration_is_read_only ss w :
  moduleClasses (run ss w) = moduleClasses w /\
  overlayStyles (run ss w) = overlayStyles w /\
  layout (run ss w) = lastLayout ss (layout w) /\
  (fresh w <= fresh (run ss w))%nat.
Proof. destruct (run_config ss w) as (? & ? & ? & ?). done. Qed.

(** X5: [repositionElements] never throws, and a second call under the same
    measurements changes nothing but the record of the call. *)
Theorem reposition_idempotent w :
  exists w1 w2,
    repositionElements w = Ok tt w1 /\
    repositionElements w1 = Ok tt w2 /\
    overlay w2 = overlay w1 /\
    set_trace (trace w1) w2 = w1.
Proof.
  set (step1 := fun w => set_overlay (repositioned w)
                 (set_trace (trace w ++ repositionCalls w) w)).
  exists (step1 w), (step1 (step1 w)).
  rewrite !repositionElements_eq'. split; [done|]. split; [done|].
  destruct w as [i ov ms cs st ch dl rl pg fr tr].
  unfold step1, repositioned, repositionCalls.
  destruct ov as [ov|], i as [a|]; cbn; try (rewrite app_nil_r; done).
  rewrite (assoc_L (∪)), (idemp_L (∪)). done.
Qed.

(** ** A selection, exactly *)

Lemma mapM_construct_throw mcs : forall w,
  mapM resolve mcs = None ->
  exists n evs,
    mapM construct mcs w = Throw TypeError (set_fresh n (set_trace (trace w ++ evs) w))
    /\ forallb is_new evs = true /\ (fresh w <= n)%nat.
Proof.
  induction mcs as [|mc mcs IH]; intros w H; [done|].
  rewrite mapM_cons, construct_eq. cbn in H.
  destruct (resolve mc) as [c|]; cbn in H.
  - destruct (mapM resolve mcs) as [cs|] eqn:Hcs; [done|].
    set (w1 := set_fresh _ _).
    destruct (IH w1 eq_refl) as (n & evs & -> & Hall & Hn).
    exists n, (EvNew (mkInstance c (fresh w)) :: evs).
    split; [|split; [done|subst w1; cbn in Hn; lia]].
    subst w1. destruct w; unfold set_fresh, set_trace; cbn. by rewrite <- app_assoc.
  - exists (fresh w), []. split; [|done].
    destruct w; unfold set_fresh, set_trace; cbn. by rewrite app_nil_r.
Qed.

Lemma show_ok t w cs :
  overlay w = None -> modules w = [] ->
  mapM resolve (moduleClasses w) = Some cs ->
  show t w = Ok tt (selected t cs w).
Proof.
  intros Ho Hm Hcs.
  destruct w as [i0 ov0 ms0 mcs st0 ch dl rl pg fr tr]; cbn in Ho, Hm, Hcs; subst.
  rewrite show_unfold, (showOverlay_fresh _ t) by done. wsimpl.
  rewrite (initializeModules_ok _ cs) by done.
  unfold selected, repositioned, repositionCalls. wsimpl. cbn [map app].
  do 2 f_equal. rewrite <- !app_assoc. reflexivity.
Qed.

Lemma show_throws t w :
  overlay w = None -> modules w = [] ->
  mapM resolve (moduleClasses w) = None ->
  exists n evs,
    show t w = Throw TypeError (halfSelected t n evs w) /\ forallb is_new evs = true
    /\ (fresh w < n)%nat.
Proof.
  intros Ho Hm Hcs.
  destruct w as [i0 ov0 ms0 mcs st0 ch dl rl pg fr tr]; cbn in Ho, Hm, Hcs; subst.
  rewrite show_unfold, (showOverlay_fresh _ t) by done. wsimpl.
  rewrite initializeModules_unfold. wsimpl. cbn [map].
  match goal with |- context [mapM construct mcs ?w1] =>
    destruct (mapM_construct_throw mcs w1 Hcs) as (n & evs & -> & Hall & Hn) end.
  exists n, evs. split; [|split; [done|cbn in Hn; lia]]. unfold halfSelected. wsimpl.
  f_equal. f_equal. rewrite app_nil_r, <- !app_assoc. reflexivity.
Qed.

Lemma cleared_idle w :
  Inv w -> overlay (cleared w) = None /\ modules (cleared w) = [].
Proof.
  intros HI. destruct (Inv_cleared w HI) as ((armed & _ & _ & H) & Hi).
  by rewrite Hi in H.
Qed.

Lemma handleClick_hide_first evt t w :
  Inv w -> target evt = Some t -> is_img t = true -> img w ≠ Some t ->
  handleClick evt w =
  match show t (cleared w) with
  | Ok _ w2 => Ok tt (set_trace (trace w2 ++ [EvPreventDefault]) w2)
  | Throw e w2 => Throw e w2
  end.
Proof.
  intros HI Ht Himg Hi. rewrite (handleClick_other evt t w Ht Himg Hi).
  unfold cleared. destruct (img w); cbn [defined]; by rewrite ?hide_Inv_eq.
Qed.

Lemma select_ok evt t w cs :
  Inv w -> target evt = Some t -> is_img t = true -> img w ≠ Some t ->
  mapM resolve (moduleClasses w) = Some cs ->
  handleClick evt w =
  Ok tt (set_trace (trace (selected t cs (cleared w)) ++ [EvPreventDefault])
           (selected t cs (cleared w))).
Proof.
  intros HI Ht Himg Hi Hcs. rewrite (handleClick_hide_first evt t w) by done.
  destruct (cleared_idle w HI) as (Ho & Hm).
  destruct (cleared_frame w) as (_ & _ & Hmc & _).
  by rewrite (show_ok t (cleared w) cs) by (rewrite ?Hmc; done).
Qed.

Lemma select_throws evt t w :
  Inv w -> target evt = Some t -> is_img t = true -> img w ≠ Some t ->
  mapM resolve (moduleClasses w) = None ->
  exists n evs,
    handleClick evt w = Throw TypeError (halfSelected t n evs (cleared w))
    /\ forallb is_new evs = true /\ (fresh w < n)%nat.
Proof.
  intros HI Ht Himg Hi Hcs. rewrite (handleClick_hide_first evt t w) by done.
  destruct (cleared_idle w HI) as (Ho & Hm).
  destruct (cleared_frame w) as (_ & _ & Hmc & _).
  destruct (cleared_frame w) as (Hfr & _).
  destruct (show_throws t (cleared w)) as (n & evs & -> & Hall & Hn);
    [done|done|by rewrite Hmc|].
  exists n, evs. by rewrite <- Hfr.
Qed.

Lemma handleClick_cases evt w :
  Inv w -> ClickCase evt w (state_of (handleClick evt w)).
Proof.
  intros HI.
  destruct (target evt) as [t|] eqn:Ht.
  - destruct (is_img t) eqn:Himg.
    + destruct (decide (img w = Some t)) as [Hi|Hi].
      * rewrite (handleClick_same evt t w) by done. by eapply click_same.
      * destruct (mapM resolve (moduleClasses w)) as [cs|] eqn:Hcs.
        -- rewrite (select_ok evt t w cs) by done. by eapply click_select.
        -- destruct (select_throws evt t w HI Ht Himg Hi Hcs)
             as (n & evs & -> & Hall & Hn).
           by eapply click_throw.
    + rewrite handleClick_away by (rewrite ?Ht; done).
      apply click_away. by rewrite Ht.
  - rewrite handleClick_away by (rewrite ?Ht; done).
    apply click_away. by rewrite Ht.
Qed.

Lemma step_cases s w : Inv w -> StepCase w s (step s w).
Proof.
  intros HI. destruct s as [evt|evt|evt|evt|evt| |pg].
  - rewrite step_Click by done. apply sc_click. by apply handleClick_cases.
  - rewrite step_MsControlSelect by done. apply sc_ms. by apply handleClick_cases.
  - rewrite step_Scroll by done. constructor.
  - rewrite step_KeyUp, checkImage_eq by done.
    destruct (img w) eqn:Hi; cbn [state_of]; by constructor.
  - rewrite step_Input, checkImage_eq by done.
    destruct (img w) eqn:Hi; cbn [state_of]; by constructor.
  - rewrite step_TextChange, repositionElements_eq'. constructor.
  - constructor.
Qed.

(** ** Invariants by the cases of a step *)

Lemma invariant_by_cases (P : World -> Prop) :
  (forall w s w', Inv w -> P w -> StepCase w s w' -> P w') ->
  forall ss w, Inv w -> P w -> P (run ss w).
Proof.
  intros Hstep ss. induction ss as [|s ss IH]; intros w HI HP; [done|].
  rewrite run_cons. apply IH; [by apply step_Inv|].
  apply (Hstep w s); [done|done|by apply step_cases].
Qed.








(** ** The module instances *)

Lemma cleared_moduleClasses w : moduleClasses (cleared w) = moduleClasses w.
Proof. by destruct (cleared_frame w) as (_ & _ & ? & _). Qed.

Lemma Staffed_step cs w s w' : Inv w -> Staffed cs w -> StepCase w s w' -> Staffed cs w'.
Proof.
  intros HI (Hcs & Hm) Hc.
  assert (Staffed cs (afterHide w)) as Hah by done.
  assert (forall evt w', ClickCase evt w w' -> Staffed cs w') as Hclick.
  { intros evt w1 [t Ht Himg Hi|Ht|t cs' Ht Himg Hi Hcs'|t n evs Ht Himg Hi Hcs' Hall Hn].
    - done.
    - unfold cleared. destruct (img w) eqn:Hi; cbn [defined]; [done|].
      split; [done|]. by rewrite Hi.
    - rewrite Hcs in Hcs'. injection Hcs' as <-.
      split; cbn; [by rewrite cleared_moduleClasses|apply instances_classes].
    - by rewrite Hcs in Hcs'. }
  destruct Hc as [evt w1 Hc|evt w1 Hc|evt|evt Hi|evt Hi|evt a Hi|evt a Hi| |pg];
    try (by eapply Hclick); try done.
  - split; [by destruct (is_delete_key evt)|done].
  - split; [by destruct (is_delete_key evt)|done].
Qed.

(** X7: when every configured entry resolves to a class, then in every
    reachable world with an image selected the live module instances are
    one per configured class, in the configured order; with none selected
    there is no instance. *)
Theorem one_instance_per_module d o pg ss cs :
  let w := run ss (constructor d o pg) in
  mapM resolve (moduleClasses (constructor d o pg)) = Some cs ->
  match img w with
  | Some _ => map inst_of (modules w) = cs
  | None => modules w = []
  end.
Proof.
  intros w Hcs.
  apply (invariant_by_cases (Staffed cs) (Staffed_step cs) ss (constructor d o pg));
    [apply Inv_constructor|done].
Qed.

Lemma one_instance_per_module_witness :
  mapM resolve (moduleClasses Sample.w0) = Some [DisplaySize; Resize] /\
  map inst_of (modules Sample.w1) = [DisplaySize; Resize].
Proof.
  split; [reflexivity|].
  apply (one_instance_per_module Sample.defaults (mkOptions None ∅) Sample.page
           [Sample.click Sample.imgA] [DisplaySize; Resize]).
  reflexivity.
Defined.






(** ** Deselection and activation *)





(** X11: in every reachable world with nothing selected and a configuration
    that resolves, an activation of an IMG element records it, sets the
    host selection to its index with length 0, registers the two
    listeners, creates, styles, attaches and positions a new overlay,
    constructs the modules, calls [onCreate] then [onUpdate] on each in
    order, and prevents the default action, in this order. *)
Theorem first_activation d o pg ss t s cs :
  let w := run ss (constructor d o pg) in
  img w = None -> is_img t = true -> targets t s ->
  mapM resolve (moduleClasses (constructor d o pg)) = Some cs ->
  step s w =
    set_trace (trace (selected t cs w) ++ [EvPreventDefault]) (selected t cs w) /\
  docListeners (step s w) = [keyupL] /\
  rootListeners (step s w) = baseListeners ++ [inputL] /\
  children (step s w) = [0%nat; fresh w].
Proof.
  intros w Hi Himg Hs Hcs. pose proof (reached_Inv d o pg ss) as HI. fold w in HI.
  destruct (step_activation t s w HI Hs) as (evt & Ht & ->).
  destruct (run_config ss (constructor d o pg)) as (Hmc & _). fold w in Hmc.
  rewrite (select_ok evt t w cs) by (rewrite ?Hi, ?Hmc; done).
  assert (cleared w = w) as -> by (unfold cleared; by rewrite Hi).
  split; [done|]. cbn.
  destruct HI as (armed & -> & -> & H). rewrite add_keyup, add_input.
  destruct (reached_Tidy d o pg ss) as (_ & Hc & _). fold w in Hc.
  rewrite Hi in H. destruct H as (Ho & _).
  unfold containerChildren in Hc. rewrite Ho in Hc. by rewrite Hc.
Qed.

Lemma first_activation_witness :
  let s := Sample.click Sample.imgA in
  let W := selected Sample.imgA [DisplaySize; Resize] Sample.w0 in
  (img Sample.w0 = None /\ is_img Sample.imgA = true /\ targets Sample.imgA s) /\
  step s Sample.w0 = set_trace (trace W ++ [EvPreventDefault]) W /\
  docListeners (step s Sample.w0) = [keyupL] /\
  rootListeners (step s Sample.w0) = baseListeners ++ [inputL] /\
  children (step s Sample.w0) = [0%nat; 1%nat].
Proof.
  intros s W.
  assert (targets Sample.imgA s) as Hs.
  { eexists. split; [left; reflexivity|reflexivity]. }
  split; [split; [reflexivity|split; [vm_compute; reflexivity|exact Hs]]|].
  apply (first_activation Sample.defaults (mkOptions None ∅) Sample.page []
           Sample.imgA s [DisplaySize; Resize]).
  - reflexivity.
  - vm_compute. reflexivity.
  - exact Hs.
  - reflexivity.
Defined.





(** ** [setUserSelect] and the position of the container *)

Lemma setUserSelect_eq v s :
  setUserSelect v s =
  mkPageStyles
    (<["msUserSelect" := v]> (<["webkitUserSelect" := v]> (<["mozUserSelect" := v]>
       (<["userSelect" := v]> (rootStyle s)))))
    (<["msUserSelect" := v]> (<["webkitUserSelect" := v]> (<["mozUserSelect" := v]>
       (<["userSelect" := v]> (htmlStyle s))))).
Proof. reflexivity. Qed.

Lemma lookup_userSelect v (m : gmap string string) k :
  <["msUserSelect" := v]> (<["webkitUserSelect" := v]> (<["mozUserSelect" := v]>
    (<["userSelect" := v]> m))) !! k
  = if is_userSelect k then Some v else m !! k.
Proof.
  unfold is_userSelect, userSelectProps.
  case_bool_decide as Hk.
  - rewrite !elem_of_cons in Hk.
    destruct Hk as [-> | [-> | [-> | [-> | Hk]]]]; [by simplify_map_eq..|].
    by apply elem_of_nil in Hk.
  - rewrite !not_elem_of_cons in Hk. destruct Hk as (? & ? & ? & ? & _).
    by rewrite !lookup_insert_ne.
Qed.

Lemma setUserSelect_lookups v s k :
  rootStyle (setUserSelect v s) !! k =
    (if is_userSelect k then Some v else rootStyle s !! k) /\
  htmlStyle (setUserSelect v s) !! k =
    (if is_userSelect k then Some v else htmlStyle s !! k).
Proof. rewrite setUserSelect_eq. cbn. by rewrite !lookup_userSelect. Qed.


Lemma PageStyles_eq s1 s2 :
  (forall k, rootStyle s1 !! k = rootStyle s2 !! k) ->
  (forall k, htmlStyle s1 !! k = htmlStyle s2 !! k) -> s1 = s2.
Proof.
  destruct s1, s2; cbn. intros H1 H2. f_equal; by apply map_eq.
Qed.

(** X15: of two calls of [setUserSelect] the last one wins, and a repeated
    call changes nothing. *)
Theorem setUserSelect_last_wins v1 v2 s :
  setUserSelect v2 (setUserSelect v1 s) = setUserSelect v2 s /\
  setUserSelect v1 (setUserSelect v1 s) = setUserSelect v1 s.
Proof.
  split; apply PageStyles_eq; intros k;
    repeat match goal with
    | |- context [rootStyle (setUserSelect ?v ?s) !! k] =>
        rewrite (proj1 (setUserSelect_lookups v s k))
    | |- context [htmlStyle (setUserSelect ?v ?s) !! k] =>
        rewrite (proj2 (setUserSelect_lookups v s k))
    end; by destruct (is_userSelect k).
Qed.

Lemma initPosition_lookup style k :
  initPosition style !! k =
    if String.eqb k "position"
    then Some (match style !! "position" with
               | Some p => if String.eqb p "" then "relative" else p
               | None => "relative"
               end)
    else style !! k.
Proof.
  unfold initPosition. destruct (String.eqb_spec k "position") as [->|Hk].
  - rewrite lookup_insert_eq. by destruct (style !! "position").
  - by rewrite lookup_insert_ne.
Qed.

(** X16: the constructor leaves a position the container already has, sets
    'relative' when it has none or an empty one, touches no other
    property, and a second construction changes nothing. *)
Theorem initPosition_keeps_existing style :
  initPosition style !! "position" =
    Some (match style !! "position" with
          | Some p => if String.eqb p "" then "relative" else p
          | None => "relative"
          end) /\
  delete "position" (initPosition style) = delete "position" style /\
  initPosition (initPosition style) = initPosition style.
Proof.
  split; [by rewrite initPosition_lookup|]. split.
  - unfold initPosition. by rewrite delete_insert_eq.
  - apply map_eq. intros k. rewrite !initPosition_lookup.
    destruct (String.eqb k "position"); [|done].
    destruct (style !! "position") as [p|]; [|done].
    destruct (String.eqb p "") eqn:Hp; [done|]. cbn. by rewrite Hp.
Qed.

(** ** The life of a module instance *)
















(** ** A detached overlay *)



